(** * SOHbenchmark: the MIT battery data explorer

    A shallow embedding of [src/dataloader/data_explorer.py]
    (class [MITBatteryDataExplorer]): the two load routines, which walk
    dataset -> battery -> cycle and accumulate per-cycle features, and
    [summarize_dataset], which computes global and grouped capacity
    statistics and writes two CSV files.

    The program is written against numpy and pandas.  Their numeric kernel is
    abstracted by the class [Arith]; it is instantiated twice, by IEEE
    binary64 ([PrimFloat], what the program really computes with) and by
    exact reals extended with an undefined value ([xreal]). *)

From Stdlib Require Import Reals Lra ZArith Ascii String.
From Stdlib Require PrimFloat Uint63.
From stdpp Require Import gmap strings list fin_maps pretty sorting.

Local Open Scope string_scope.
Local Open Scope list_scope.
Local Open Scope nat_scope.

(** ** Python exceptions and the error monad *)

Inductive exn := ValueError | IndexError | KeyError | TypeError.

Inductive result (A : Type) : Type :=
| Ok (a : A)
| Raise (e : exn).
Arguments Ok {A} a.
Arguments Raise {A} e.

Global Instance result_ret : MRet result := @Ok.
Global Instance result_bind : MBind result := λ A B f m,
  match m with
  | Ok a => f a
  | Raise e => Raise e
  end.

(** [for i, x in enumerate(l, start)] collecting the values of a fallible body. *)
Fixpoint imapM {A B} (f : nat → A → result B) (start : nat) (l : list A)
  : result (list B) :=
  match l with
  | [] => Ok []
  | x :: l' => y ← f start x; ys ← imapM f (S start) l'; Ok (y :: ys)
  end.

Definition mapM {A B} (f : A → result B) : list A → result (list B) :=
  imapM (λ _, f) 0.

(** ** The numeric kernel *)

Class Arith (F : Type) := {
  fzero : F;
  fnan : F;
  fadd : F → F → F;
  fsub : F → F → F;
  fmul : F → F → F;
  fdiv : F → F → F;
  fsqrt : F → F;
  fleb : F → F → bool;
  feqb : F → F → bool;
  of_nat : nat → F
}.

Section Explorer.

Context {F : Type} `{Arith F}.

Definition fisnan (x : F) : bool := negb (feqb x x).

(** *** numpy reductions over a flattened array *)

(** [np.sum] on float64 is [add.reduce], whose inner loop is numpy's
    pairwise summation.  Fewer than 8 elements are added left to right,
    starting from 0.  Up to 128 elements are added in 8 interleaved
    accumulators, started from the first 8 elements and advanced 8 elements
    at a time; the accumulators are then combined as a balanced tree and the
    fewer than 8 elements left over are added one by one.  A longer array is
    split in two, the first part of [n/2] elements rounded down to a
    multiple of 8, and the two sums are added. *)
Fixpoint unrolled8 (r0 r1 r2 r3 r4 r5 r6 r7 : F) (a : list F) : F :=
  match a with
  | b0 :: b1 :: b2 :: b3 :: b4 :: b5 :: b6 :: b7 :: a' =>
      unrolled8 (fadd r0 b0) (fadd r1 b1) (fadd r2 b2) (fadd r3 b3)
                (fadd r4 b4) (fadd r5 b5) (fadd r6 b6) (fadd r7 b7) a'
  | rest =>
      foldl fadd
        (fadd (fadd (fadd r0 r1) (fadd r2 r3))
              (fadd (fadd r4 r5) (fadd r6 r7))) rest
  end.

Definition block_sum (a : list F) : F :=
  match a with
  | a0 :: a1 :: a2 :: a3 :: a4 :: a5 :: a6 :: a7 :: a' =>
      unrolled8 a0 a1 a2 a3 a4 a5 a6 a7 a'
  | _ => foldl fadd fzero a
  end.

(** The recursion of numpy's [pairwise_sum]; [depth] bounds the number of
    nested splits, and [length a] is always enough
    ([pairwise_sum_split] below). *)
Fixpoint pairwise_sum_go (depth : nat) (a : list F) : F :=
  if (length a <=? 128)%nat then block_sum a
  else
    match depth with
    | 0 => block_sum a
    | S depth =>
        let n2 := length a / 2 - (length a / 2) mod 8 in
        fadd (pairwise_sum_go depth (take n2 a))
             (pairwise_sum_go depth (drop n2 a))
    end.

Definition pairwise_sum (a : list F) : F := pairwise_sum_go (length a) a.

(** The reduction starts from the identity of [add], 0, and adds the
    pairwise sum of the array to it. *)
Definition np_sum (a : list F) : F := fadd fzero (pairwise_sum a).

(** [np.mean(a)]: sum over count; for a zero-size array this is [0/0], a
    NaN with a warning, not an exception. *)
Definition np_mean (a : list F) : F := fdiv (np_sum a) (of_nat (length a)).

(** [np.maximum] and [np.minimum] propagate a NaN on the left. *)
Definition maximum (a b : F) : F := if fleb b a || fisnan a then a else b.
Definition minimum (a b : F) : F := if fleb a b || fisnan a then a else b.

(** [np.max(a)]: a zero-size array has no identity, numpy raises
    [ValueError]. *)
Definition np_max (a : list F) : result F :=
  match a with
  | [] => Raise ValueError
  | x :: a' => Ok (foldl maximum x a')
  end.

Definition np_min (a : list F) : result F :=
  match a with
  | [] => Raise ValueError
  | x :: a' => Ok (foldl minimum x a')
  end.

(** [np.var(a, ddof)] is numpy's [_var]: the mean by [np.sum] and a
    division, the squared deviations from it, their [np.sum], and a division
    by [max(N - ddof, 0)].  [np.std] is its square root; numpy's default is
    [ddof = 0]. *)
Definition sq_dev (a : list F) : F :=
  let m := np_mean a in
  np_sum ((λ x, fmul (fsub x m) (fsub x m)) <$> a).

Definition np_var (ddof : nat) (a : list F) : F :=
  fdiv (sq_dev a) (of_nat (length a - ddof)).
Definition np_std (a : list F) : F := fsqrt (np_var 0 a).

(** *** pandas group aggregations

    The aggregations [mean], [min], [max] and [std] of a float64 column of
    a group are pandas' group kernels: one pass over the values of the
    group, in row order, which leaves out every missing value (NaN) and
    counts the values it keeps. *)

Definition fltb (x y : F) : bool := fleb x y && negb (fleb y x).

(** [group_mean]: a compensated (Kahan) sum over the count; NaN for a group
    with no value. *)
Definition kahan_step (st : nat * F * F) (val : F) : nat * F * F :=
  let '(nobs, sumx, compensation) := st in
  if fisnan val then st
  else
    let y := fsub val compensation in
    let t := fadd sumx y in
    let c := fsub (fsub t sumx) y in
    (S nobs, t, if fisnan c then fzero else c).

Definition group_mean (a : list F) : F :=
  let '(nobs, sumx, _) := foldl kahan_step (0, fzero, fzero) a in
  match nobs with
  | 0 => fnan
  | S _ => fdiv sumx (of_nat nobs)
  end.

(** [group_min] and [group_max]: the running extremum is replaced by a
    value strictly below (above) it; NaN for a group with no value. *)
Definition min_step (cur : option F) (val : F) : option F :=
  if fisnan val then cur
  else
    match cur with
    | None => Some val
    | Some m => Some (if fltb val m then val else m)
    end.

Definition max_step (cur : option F) (val : F) : option F :=
  if fisnan val then cur
  else
    match cur with
    | None => Some val
    | Some m => Some (if fltb m val then val else m)
    end.

Definition group_min (a : list F) : F := default fnan (foldl min_step None a).
Definition group_max (a : list F) : F := default fnan (foldl max_step None a).

(** [group_var]: Welford's one-pass update of the mean and of the sum of
    squared deviations.  pandas' [std] is its square root with the default
    [ddof = 1]; a group with no more than [ddof] values yields NaN. *)
Definition welford_step (st : nat * F * F) (val : F) : nat * F * F :=
  let '(nobs, mean, out) := st in
  if fisnan val then st
  else
    let mean' := fadd mean (fdiv (fsub val mean) (of_nat (S nobs))) in
    (S nobs, mean', fadd out (fmul (fsub val mean') (fsub val mean))).

Definition pd_std (ddof : nat) (a : list F) : F :=
  let '(nobs, _, out) := foldl welford_step (0, fzero, fzero) a in
  if (nobs <=? ddof)%nat then fnan
  else fsqrt (fdiv out (of_nat (nobs - ddof))).

(** ** Values, dicts and the decoded input *)

(** What a cell of a cycle-feature dict or of a DataFrame can hold. *)
Inductive value :=
| VInt (n : nat)
| VStr (s : string)
| VFloat (x : F)
| VArray (xs : list F).

(** A Python dict with string keys, in insertion order. *)
Definition pydict := list (string * value).

Fixpoint dict_get (d : pydict) (k : string) : option value :=
  match d with
  | [] => None
  | (k', v) :: d' => if String.eqb k' k then Some v else dict_get d' k
  end.

Definition dict_keys (d : pydict) : list string := d.*1.

(** The [capacity] field as loadmat yields it: a 1-d or a 2-d array. *)
Inductive ndarray :=
| Arr1 (xs : list F)
| Arr2 (rows : list (list F)).

(** [a[0]] *)
Definition index0 (a : ndarray) : result value :=
  match a with
  | Arr1 (x :: _) => Ok (VFloat x)
  | Arr2 (r :: _) => Ok (VArray r)
  | _ => Raise IndexError
  end.

(** One cycle structure; the four signals are kept as their flattened
    sample sequences. *)
Record cycle := {
  relative_time_min : list F;
  current_A : list F;
  voltage_V : list F;
  temperature_C : list F;
  capacity : ndarray
}.

(** [battery[0, i][0]]: the cycle array of one battery. *)
Definition battery_cycles_t := list cycle.
(** [mat["battery"]]: shape [1, N]. *)
Definition matfile := list battery_cycles_t.

(** ** The explorer object *)

Record battery_entry := {
  cycles : list pydict;
  capacities : list value
}.

Record explorer := {
  output_dir : string;
  battery_data : gmap string battery_entry;
  summary_data : list pydict
}.

Definition init (out : string) : explorer :=
  {| output_dir := out; battery_data := ∅; summary_data := [] |}.

(** The body of the dict literal [cycle_features], evaluated in source
    order. *)
Definition cycle_features (cycle_type : string) (battery_idx cycle_idx : nat)
    (c : cycle) (capacity : value) : result pydict :=
  let time := relative_time_min c in
  let current := current_A c in
  let voltage := voltage_V c in
  let temperature := temperature_C c in
  let time_mean := np_mean time in
  time_max ← np_max time;
  let current_mean := np_mean current in
  current_max ← np_max current;
  let voltage_mean := np_mean voltage in
  voltage_max ← np_max voltage;
  let temperature_mean := np_mean temperature in
  temperature_max ← np_max temperature;
  Ok [ ("battery_id", VInt (battery_idx + 1));
       ("cycle_type", VStr cycle_type);
       ("cycle_idx", VInt cycle_idx);
       ("time_mean", VFloat time_mean);
       ("time_max", VFloat time_max);
       ("current_mean", VFloat current_mean);
       ("current_max", VFloat current_max);
       ("voltage_mean", VFloat voltage_mean);
       ("voltage_max", VFloat voltage_max);
       ("temperature_mean", VFloat temperature_mean);
       ("temperature_max", VFloat temperature_max);
       ("capacity", capacity) ].

(** One iteration of the inner loop: the features and the capacity that are
    appended to [cycle_data] and [capacities]. *)
Definition extract_cycle (cycle_type : string) (battery_idx cycle_idx : nat)
    (c : cycle) : result (pydict * value) :=
  capacity ← index0 (capacity c);
  features ← cycle_features cycle_type battery_idx cycle_idx c capacity;
  Ok (features, capacity).

(** [for cycle_idx in range(battery_cycles.shape[1])], with the two
    accumulators the source appends to. *)
Fixpoint cycle_loop (cycle_type : string) (battery_idx cycle_idx : nat)
    (battery_cycles : list cycle) (cycle_data : list pydict)
    (capacities : list value) : result (list pydict * list value) :=
  match battery_cycles with
  | [] => Ok (cycle_data, capacities)
  | c :: rest =>
      fc ← extract_cycle cycle_type battery_idx cycle_idx c;
      cycle_loop cycle_type battery_idx (S cycle_idx) rest
        (cycle_data ++ [fc.1]) (capacities ++ [fc.2])
  end.

(** The key [f"battery_{battery_idx+1}_{cycle_type}"]. *)
Definition battery_key (battery_id : nat) (cycle_type : string) : string :=
  "battery_" +:+ pretty battery_id +:+ "_" +:+ cycle_type.

Definition store_battery (self : explorer) (key : string)
    (cycle_data : list pydict) (capacities : list value) : explorer :=
  {| output_dir := output_dir self;
     battery_data :=
       <[key := {| cycles := cycle_data; capacities := capacities |}]>
         (battery_data self);
     summary_data := summary_data self ++ cycle_data |}.

(** [for battery_idx in range(battery.shape[1])] *)
Fixpoint battery_loop (cycle_type : string) (battery_idx : nat)
    (battery : list battery_cycles_t) (self : explorer) : result explorer :=
  match battery with
  | [] => Ok self
  | battery_cycles :: rest =>
      cc ← cycle_loop cycle_type battery_idx 0 battery_cycles [] [];
      battery_loop cycle_type (S battery_idx) rest
        (store_battery self (battery_key (battery_idx + 1) cycle_type) cc.1 cc.2)
  end.

(** [for file in files], each file already decoded by [loadmat]. *)
Fixpoint file_loop (cycle_type : string) (files : list matfile)
    (self : explorer) : result explorer :=
  match files with
  | [] => Ok self
  | mat :: rest =>
      self' ← battery_loop cycle_type 0 mat self;
      file_loop cycle_type rest self'
  end.

(** The dataset root: the decoded files of the two subdirectories, in the
    order [os.listdir] returns them. *)
Record dataset := {
  charge_dir : list matfile;
  partial_charge_dir : list matfile
}.

(** The two routines of the source differ only in the subdirectory and the
    label. *)
Definition load_charge_data (data_root : dataset) (self : explorer)
  : result explorer :=
  file_loop "charge" (charge_dir data_root) self.

Definition load_partial_charge_data (data_root : dataset) (self : explorer)
  : result explorer :=
  file_loop "partial_charge" (partial_charge_dir data_root) self.

(** ** A small pandas *)

Record DataFrame := {
  columns : list string;
  rows : list (list value)
}.

(** A cell that a record does not provide is NaN. *)
Definition missing : value := VFloat fnan.

Definition add_key (cols : list string) (k : string) : list string :=
  if bool_decide (k ∈ cols) then cols else cols ++ [k].

(** [pd.DataFrame(list_of_dicts)]: one column per key, in order of first
    appearance, one row per dict. *)
Definition frame_columns (data : list pydict) : list string :=
  foldl (λ cols d, foldl add_key cols (dict_keys d)) [] data.

Definition DataFrame_of (data : list pydict) : DataFrame :=
  let cols := frame_columns data in
  {| columns := cols;
     rows := (λ d, (λ k, default missing (dict_get d k)) <$> cols) <$> data |}.

Definition column_index (df : DataFrame) (name : string) : result nat :=
  match list_find (λ c, c = name) (columns df) with
  | Some (i, _) => Ok i
  | None => Raise KeyError
  end.

(** [df[name]] *)
Definition df_getitem (df : DataFrame) (name : string) : result (list value) :=
  i ← column_index df name;
  Ok ((λ r, default missing (r !! i)) <$> rows df).

(** [df[name] = vals]: replaces the column if it exists, appends it
    otherwise. *)
Definition df_setitem (df : DataFrame) (name : string) (vals : list value)
  : DataFrame :=
  match list_find (λ c, c = name) (columns df) with
  | Some (i, _) =>
      {| columns := columns df;
         rows := zip_with (λ r v, <[i := v]> r) (rows df) vals |}
  | None =>
      {| columns := columns df ++ [name];
         rows := zip_with (λ r v, r ++ [v]) (rows df) vals |}
  end.

(** [df.drop(columns=[name])] *)
Definition df_drop (df : DataFrame) (name : string) : result DataFrame :=
  i ← column_index df name;
  Ok {| columns := delete i (columns df); rows := delete i <$> rows df |}.

(** The lambda of lines 155 and 174:
    [x[0] if isinstance(x, np.ndarray) else x]. *)
Definition flatten_capacity (x : value) : result value :=
  match x with
  | VArray (x0 :: _) => Ok (VFloat x0)
  | VArray [] => Raise IndexError
  | _ => Ok x
  end.

(** Conversion of a column to a float array. *)
Definition to_float (v : value) : result F :=
  match v with
  | VFloat x => Ok x
  | VInt n => Ok (of_nat n)
  | _ => Raise TypeError
  end.

Definition to_str (v : value) : result string :=
  match v with
  | VStr s => Ok s
  | _ => Raise TypeError
  end.

(** One row of [agg(["mean", "min", "max", "std"])]. *)
Record agg_row := {
  agg_mean : F;
  agg_min : F;
  agg_max : F;
  agg_std : F
}.

Definition group_values (ks : list string) (xs : list F) (g : string) : list F :=
  (filter (λ p, p.1 = g) (zip ks xs)).*2.

Definition aggregate (a : list F) : agg_row :=
  {| agg_mean := group_mean a; agg_min := group_min a;
     agg_max := group_max a; agg_std := pd_std 1 a |}.

(** [df.groupby(key)[val].agg(["mean", "min", "max", "std"])]: one row per
    distinct key, keys sorted. *)
Definition groupby_agg (df : DataFrame) (key val : string)
  : result (list (string * agg_row)) :=
  kcol ← df_getitem df key;
  vcol ← df_getitem df val;
  ks ← mapM to_str kcol;
  xs ← mapM to_float vcol;
  Ok ((λ g, (g, aggregate (group_values ks xs g)))
        <$> merge_sort String.le (remove_dups ks)).

(** *** CSV output *)

Section csv.

(** The formatting of a float ([repr], or the empty string for NaN). *)
Variable fmt : F → string.

Fixpoint join (sep : string) (l : list string) : string :=
  match l with
  | [] => ""
  | [s] => s
  | s :: l' => s +:+ sep +:+ join sep l'
  end.

Definition render_cell (v : value) : string :=
  match v with
  | VInt n => pretty n
  | VStr s => s
  | VFloat x => fmt x
  | VArray xs => "[" +:+ join " " (fmt <$> xs) +:+ "]"
  end.

Definition csv_line (cells : list string) : string :=
  join "," cells +:+ String "010"%char "".

(** [df.to_csv(path, index=False)] *)
Definition to_csv (df : DataFrame) : string :=
  String.concat ""
    (csv_line (columns df)
     :: ((λ r, csv_line (render_cell <$> r)) <$> rows df)).

(** [grouped_stats.to_csv(path)]: the index [cycle_type] is written first. *)
Definition grouped_to_csv (g : list (string * agg_row)) : string :=
  String.concat ""
    (csv_line ["cycle_type"; "mean"; "min"; "max"; "std"]
     :: ((λ kr, csv_line [kr.1; fmt (agg_mean kr.2); fmt (agg_min kr.2);
                          fmt (agg_max kr.2); fmt (agg_std kr.2)]) <$> g)).

(** What [summarize_dataset] prints and saves. *)
Record report := {
  total_batteries : nat;
  total_cycles : nat;
  capacity_mean : F;
  capacity_min : F;
  capacity_max : F;
  capacity_std : F;
  summary_df : DataFrame;
  grouped_stats : list (string * agg_row)
}.

Definition path_join (dir name : string) : string := dir +:+ "/" +:+ name.

(** [summarize_dataset], threading the output files (path -> content). *)
Definition summarize_dataset (self : explorer) (fs : gmap string string)
  : result (report * gmap string string) :=
  let summary_df := DataFrame_of (summary_data self) in
  ccol ← df_getitem summary_df "capacity";
  flat ← mapM flatten_capacity ccol;
  all_capacities ← mapM to_float flat;
  let total_batteries := size (battery_data self) in
  let total_cycles := length (summary_data self) in
  let mean := np_mean all_capacities in
  mn ← np_min all_capacities;
  mx ← np_max all_capacities;
  let std := np_std all_capacities in
  ccol ← df_getitem summary_df "capacity";
  flat ← mapM flatten_capacity ccol;
  let summary_df := df_setitem summary_df "flattened_capacity" flat in
  summary_df ← df_drop summary_df "capacity";
  grouped_stats ← groupby_agg summary_df "cycle_type" "flattened_capacity";
  let summary_path := path_join (output_dir self) "battery_cycle_summary.csv" in
  let fs := <[summary_path := to_csv summary_df]> fs in
  let grouped_stats_path :=
    path_join (output_dir self) "battery_cycle_type_summary.csv" in
  let fs := <[grouped_stats_path := grouped_to_csv grouped_stats]> fs in
  Ok ({| total_batteries := total_batteries;
         total_cycles := total_cycles;
         capacity_mean := mean;
         capacity_min := mn;
         capacity_max := mx;
         capacity_std := std;
         summary_df := summary_df;
         grouped_stats := grouped_stats |}, fs).

(** The file system as the program sees it: the dataset it reads and the
    files it has written. *)
Record world := {
  data_root : dataset;
  written : gmap string string
}.

(** [main]: a fresh explorer, the two loads, the summary. *)
Definition main (w : world) : result (report * world) :=
  let explorer := init "output" in
  explorer ← load_charge_data (data_root w) explorer;
  explorer ← load_partial_charge_data (data_root w) explorer;
  rf ← summarize_dataset explorer (written w);
  Ok (rf.1, {| data_root := data_root w; written := rf.2 |}).

End csv.

End Explorer.

Arguments value F : clear implicits.
Arguments pydict F : clear implicits.
Arguments ndarray F : clear implicits.
Arguments cycle F : clear implicits.
Arguments matfile F : clear implicits.
Arguments battery_cycles_t F : clear implicits.
Arguments battery_entry F : clear implicits.
Arguments explorer F : clear implicits.
Arguments dataset F : clear implicits.
Arguments DataFrame F : clear implicits.
Arguments agg_row F : clear implicits.
Arguments report F : clear implicits.
Arguments world F : clear implicits.

(** ** The two instances of the numeric kernel *)

(** IEEE 754 binary64, the [float64] of numpy. *)
Module Float64.

Definition float_of_nat (n : nat) : PrimFloat.float :=
  PrimFloat.of_uint63 (Uint63.of_Z (Z.of_nat n)).

#[global] Instance arith : Arith PrimFloat.float := {|
  fzero := PrimFloat.zero;
  fnan := PrimFloat.nan;
  fadd := PrimFloat.add;
  fsub := PrimFloat.sub;
  fmul := PrimFloat.mul;
  fdiv := PrimFloat.div;
  fsqrt := PrimFloat.sqrt;
  fleb := PrimFloat.leb;
  feqb := PrimFloat.eqb;
  of_nat := float_of_nat
|}.

End Float64.

(** Exact real arithmetic with one undefined value: division by zero and
    the square root of a negative number are undefined, and undefinedness
    propagates. *)
Module Exact.

Inductive xreal := XNaN | XR (r : R).

Definition lift2 (f : R → R → R) (x y : xreal) : xreal :=
  match x, y with
  | XR a, XR b => XR (f a b)
  | _, _ => XNaN
  end.

Definition xdiv (x y : xreal) : xreal :=
  match x, y with
  | XR a, XR b => if Req_EM_T b 0 then XNaN else XR (a / b)
  | _, _ => XNaN
  end.

Definition xsqrt (x : xreal) : xreal :=
  match x with
  | XR a => if Rlt_dec a 0 then XNaN else XR (sqrt a)
  | XNaN => XNaN
  end.

Definition xleb (x y : xreal) : bool :=
  match x, y with
  | XR a, XR b => if Rle_dec a b then true else false
  | _, _ => false
  end.

Definition xeqb (x y : xreal) : bool :=
  match x, y with
  | XR a, XR b => if Req_EM_T a b then true else false
  | _, _ => false
  end.

#[global] Instance arith : Arith xreal := {|
  fzero := XR 0;
  fnan := XNaN;
  fadd := lift2 Rplus;
  fsub := lift2 Rminus;
  fmul := lift2 Rmult;
  fdiv := xdiv;
  fsqrt := xsqrt;
  fleb := xleb;
  feqb := xeqb;
  of_nat := λ n, XR (INR n)
|}.

End Exact.

(** ** Specification-level views of a load

    The loops of the source thread accumulators; the statements below are
    phrased over plain traversals of the input, which the loops are proved
    to compute. *)

Section Views.
Context {F : Type} `{Arith F}.

(** The group one battery contributes: its key and its entry. *)
Definition battery_group (cycle_type : string) (battery_idx : nat)
    (cs : list (cycle F)) : result (string * battery_entry F) :=
  r ← imapM (extract_cycle cycle_type battery_idx) 0 cs;
  Ok (battery_key (battery_idx + 1) cycle_type,
      {| cycles := r.*1; capacities := r.*2 |}).

Definition file_groups (cycle_type : string) (mat : matfile F)
  : result (list (string * battery_entry F)) :=
  imapM (battery_group cycle_type) 0 mat.

(** All groups of a subdirectory, in file order then battery order. *)
Definition dir_groups (cycle_type : string) (files : list (matfile F))
  : result (list (string * battery_entry F)) :=
  gss ← mapM (file_groups cycle_type) files;
  Ok (mjoin (gss : list (list (string * battery_entry F)))).

Definition store_all (self : explorer F) (gs : list (string * battery_entry F))
  : explorer F :=
  foldl (λ s g, store_battery s g.1 (cycles g.2) (capacities g.2)) self gs.

(** Both load routines on a fresh explorer, as [main] runs them. *)
Definition load_all (data_root : dataset F) : result (explorer F) :=
  explorer ← load_charge_data data_root (init "output");
  load_partial_charge_data data_root explorer.

(** The sum over the entries of the BatteryGroup mapping of the entry's
    cycle count. *)
Definition cycle_count_sum (m : gmap string (battery_entry F)) : nat :=
  map_fold (λ _ e n, length (cycles e) + n) 0 m.

(** The number of cycles in the files of a subdirectory. *)
Definition dir_cycle_count (files : list (matfile F)) : nat :=
  sum_list_with (λ mat : matfile F, sum_list_with length mat) files.

(** The (battery_id, cycle_type) pair of every (file, battery) loaded from
    a subdirectory, in load order. *)
Definition dir_pairs (cycle_type : string) (files : list (matfile F))
  : list (nat * string) :=
  mat ← files; (λ i, (i + 1, cycle_type)) <$> seq 0 (length mat).

Definition loaded_pairs (data_root : dataset F) : list (nat * string) :=
  dir_pairs "charge" (charge_dir data_root)
  ++ dir_pairs "partial_charge" (partial_charge_dir data_root).


Definition has_empty_signal (c : cycle F) : Prop :=
  relative_time_min c = [] ∨ current_A c = [] ∨ voltage_V c = []
  ∨ temperature_C c = [].

(** A cycle of the subdirectory listing [files]. *)
Definition cycle_in (files : list (matfile F)) (c : cycle F) : Prop :=
  ∃ mat cs, mat ∈ files ∧ cs ∈ mat ∧ c ∈ cs.

(** The capacity field holds at least one scalar where the source reads
    it. *)
Definition capacity_ok (c : cycle F) : Prop :=
  match capacity c with
  | Arr1 (_ :: _) => True
  | Arr2 ((_ :: _) :: _) => True
  | _ => False
  end.

(** Sequential insertion of groups into the mapping: a later group with
    the same key replaces the earlier one. *)
Definition insert_all (m : gmap string (battery_entry F))
    (gs : list (string * battery_entry F)) : gmap string (battery_entry F) :=
  foldl (λ m g, <[g.1 := g.2]> m) m gs.

(** The key a (battery_id, cycle_type) pair is stored under. *)
Definition key_of_pair (p : nat * string) : string := battery_key p.1 p.2.

(** The two subdirectories with their labels, in load order. *)
Definition subdirs (data_root : dataset F) : list (string * list (matfile F)) :=
  [("charge", charge_dir data_root);
   ("partial_charge", partial_charge_dir data_root)].

(** The keys of a cycle-feature dict, in the order of the dict literal. *)
Definition feature_keys : list string :=
  ["battery_id"; "cycle_type"; "cycle_idx"; "time_mean"; "time_max";
   "current_mean"; "current_max"; "voltage_mean"; "voltage_max";
   "temperature_mean"; "temperature_max"; "capacity"].

(** The columns of the per-cycle CSV. *)
Definition summary_columns : list string :=
  ["battery_id"; "cycle_type"; "cycle_idx"; "time_mean"; "time_max";
   "current_mean"; "current_max"; "voltage_mean"; "voltage_max";
   "temperature_mean"; "temperature_max"; "flattened_capacity"].

(** A cycle-feature dict with the given field values. *)
Definition mk_record (battery_id : nat) (cycle_type : string) (cycle_idx : nat)
    (tm tM cm cM vm vM em eM : F) (cap : value F) : pydict F :=
  [ ("battery_id", VInt battery_id);
    ("cycle_type", VStr cycle_type);
    ("cycle_idx", VInt cycle_idx);
    ("time_mean", VFloat tm);
    ("time_max", VFloat tM);
    ("current_mean", VFloat cm);
    ("current_max", VFloat cM);
    ("voltage_mean", VFloat vm);
    ("voltage_max", VFloat vM);
    ("temperature_mean", VFloat em);
    ("temperature_max", VFloat eM);
    ("capacity", cap) ].

(** What [a[0]] can return. *)
Definition index0_shape (v : value F) : Prop :=
  match v with
  | VFloat _ | VArray _ => True
  | _ => False
  end.

(** The records a load produces, with their cycle type and capacity cell. *)
Inductive is_record : pydict F → string → value F → Prop :=
| IsRecord b ty j tm tM cm cM vm vM em eM cap :
    index0_shape cap →
    is_record (mk_record b ty j tm tM cm cM vm vM em eM cap) ty cap.

(** A record whose capacity cell unwraps to the scalar [t.2], tagged with
    its cycle type [t.1]. *)
Definition flat_record (r : pydict F) (t : string * F) : Prop :=
  ∃ cap, is_record r t.1 cap ∧ flatten_capacity cap = Ok (VFloat t.2).

(** The scalar capacity and the cycle type of a record. *)
Definition capacity_of (r : pydict F) : option F :=
  match dict_get r "capacity" with
  | Some (VFloat x) => Some x
  | Some (VArray (x :: _)) => Some x
  | _ => None
  end.

Definition cycle_type_of (r : pydict F) : option string :=
  match dict_get r "cycle_type" with
  | Some (VStr s) => Some s
  | _ => None
  end.

(** The capacities of all records, and of the records of one cycle type. *)
Definition all_capacities (data : list (pydict F)) : list F :=
  omap capacity_of data.

Definition group_capacities (data : list (pydict F)) (ty : string) : list F :=
  omap capacity_of (filter (λ r, cycle_type_of r = Some ty) data).

(** Mean and standard deviation in the words of the specification: the
    sum of the values over [N], and the square root of the sum of squared
    deviations from the mean over [N], respectively over [N - 1].  The sums
    are taken term by term in the order of the list. *)
Definition total (xs : list F) : F := foldl fadd fzero xs.

Definition mean_of (xs : list F) : F := fdiv (total xs) (of_nat (length xs)).

Definition sum_sq_dev (xs : list F) : F :=
  total ((λ x, fmul (fsub x (mean_of xs)) (fsub x (mean_of xs))) <$> xs).

Definition population_std (xs : list F) : F :=
  fsqrt (fdiv (sum_sq_dev xs) (of_nat (length xs))).

Definition sample_std (xs : list F) : F :=
  fsqrt (fdiv (sum_sq_dev xs) (of_nat (length xs - 1))).

(** The row of the per-cycle CSV for a record: its first eleven cells and
    the unwrapped capacity. *)
Definition final_row (r : pydict F) (x : F) : list (value F) :=
  take 11 r.*2 ++ [VFloat x].

(** The capacities tagged [g] in a list of (cycle type, capacity) pairs. *)
Definition caps_of (g : string) (ts : list (string * F)) : list F :=
  (filter (λ t, t.1 = g) ts).*2.

(** The grouped table: one row per distinct cycle type, sorted, each the
    aggregate of the capacities of that type. *)
Definition grouped_of (ts : list (string * F)) (grouped : list (string * agg_row F)) : Prop :=
  Forall2 (λ g gr, gr.1 = g ∧ gr.2 = aggregate (caps_of g ts))
    (merge_sort String.le (remove_dups ts.*1)) grouped.

End Views.

(** Whether a character occurs in a string. *)
Fixpoint occurs (c : ascii) (s : string) : bool :=
  match s with
  | EmptyString => false
  | String a s' => Ascii.eqb a c || occurs c s'
  end.

(** ** Concrete inputs, in binary64 *)

Module Examples.
Import PrimFloat.
Import Float64.
Local Open Scope float_scope.

(** A cycle with short, well-formed signals and the given capacity, stored
    as loadmat stores a scalar: a 1 x 1 matrix. *)
Definition cycle_with (cap : float) : cycle float :=
  {| relative_time_min := [0; 1; 2];
     current_A := [1.5; 1.5; 1];
     voltage_V := [3.5; 3.75; 4];
     temperature_C := [25; 26; 25.5];
     capacity := Arr2 [[cap]] |}.

(** One file per subdirectory, one battery each: the synthetic input of the
    grouped-statistics test. *)
Definition synthetic : dataset float :=
  {| charge_dir := [[ [cycle_with 10; cycle_with 20; cycle_with 30] ]];
     partial_charge_dir := [[ [cycle_with 5; cycle_with 5; cycle_with 5] ]] |}.

(** Two files in [charge/], each with one battery of one cycle. *)
Definition two_files : dataset float :=
  {| charge_dir := [ [ [cycle_with 10] ]; [ [cycle_with 20] ] ];
     partial_charge_dir := [] |}.

(** A cycle whose current is constant at the double nearest to 0.1. *)
Definition constant_current : cycle float :=
  {| relative_time_min := [0; 1; 2];
     current_A := [0x1.999999999999ap-4; 0x1.999999999999ap-4;
                   0x1.999999999999ap-4];
     voltage_V := [3.5; 3.75; 4];
     temperature_C := [25; 26; 25.5];
     capacity := Arr2 [[1]] |}.

(** A cycle whose temperature signal has no sample. *)
Definition no_temperature : cycle float :=
  {| relative_time_min := [0; 1; 2];
     current_A := [1.5; 1.5; 1];
     voltage_V := [3.5; 3.75; 4];
     temperature_C := [];
     capacity := Arr2 [[1]] |}.

Definition broken : world float :=
  {| data_root :=
       {| charge_dir := [[ [cycle_with 10; no_temperature] ]];
          partial_charge_dir := [] |};
     written := ∅ |}.

Definition synthetic_world : world float :=
  {| data_root := synthetic; written := ∅ |}.

(** One charge cycle and three partial-charge cycles. *)
Definition single_charge : dataset float :=
  {| charge_dir := [[ [cycle_with 10] ]];
     partial_charge_dir := [[ [cycle_with 5; cycle_with 6; cycle_with 7] ]] |}.

(** The runs of the pipeline on these inputs, evaluated once. *)
Definition no_fmt (_ : float) : string := "".

Definition ok_or {A} (r : result A) (default : A) : A :=
  match r with
  | Ok a => a
  | Raise _ => default
  end.

Definition empty_report : report float :=
  {| total_batteries := 0; total_cycles := 0; capacity_mean := 0;
     capacity_min := 0; capacity_max := 0; capacity_std := 0;
     summary_df := {| columns := []; rows := [] |};
     grouped_stats := [] |}.

Definition synthetic_state : explorer float :=
  Eval vm_compute in ok_or (load_all synthetic) (init "").

Definition synthetic_summary : report float * gmap string string :=
  Eval vm_compute in
    ok_or (summarize_dataset no_fmt synthetic_state ∅) (empty_report, ∅).

(** The entry of the mapping for battery 1 of the charge file. *)
Definition synthetic_entry : battery_entry float :=
  Eval vm_compute in
    default {| cycles := []; capacities := [] |}
      (battery_data synthetic_state !! "battery_1_charge").

Definition two_files_state : explorer float :=
  Eval vm_compute in ok_or (load_all two_files) (init "").

Definition single_charge_state : explorer float :=
  Eval vm_compute in ok_or (load_all single_charge) (init "").

End Examples.

(** ** Further views: what the routines print, and well-formed cycles *)

Section MoreViews.
Context {F : Type} `{Arith F}.

(** The capacity array has an element where line 56 indexes it. *)
Definition capacity_indexable (c : cycle F) : Prop :=
  match capacity c with
  | Arr1 (_ :: _) => True
  | Arr2 (_ :: _) => True
  | _ => False
  end.

(** The load routines with the count their last line prints:
    [len(self.battery_data)] after the loop. *)
Definition load_charge_data_printed (data_root : dataset F) (self : explorer F)
  : result (explorer F * nat) :=
  self' ← load_charge_data data_root self;
  Ok (self', size (battery_data self')).

Definition load_partial_charge_data_printed (data_root : dataset F)
    (self : explorer F) : result (explorer F * nat) :=
  self' ← load_partial_charge_data data_root self;
  Ok (self', size (battery_data self')).

(** A cycle of one of the two subdirectories. *)
Definition in_dataset (d : dataset F) (c : cycle F) : Prop :=
  cycle_in (charge_dir d) c ∨ cycle_in (partial_charge_dir d) c.

(** The two files [summarize_dataset] writes. *)
Definition summary_path (self : explorer F) : string :=
  path_join (output_dir self) "battery_cycle_summary.csv".

Definition grouped_stats_path (self : explorer F) : string :=
  path_join (output_dir self) "battery_cycle_type_summary.csv".

End MoreViews.

Module MoreExamples.
Import PrimFloat.
Local Open Scope float_scope.

(** A charge file whose only battery has no cycle. *)
Definition no_cycles : dataset float :=
  {| charge_dir := [[ [] ]]; partial_charge_dir := [] |}.

Definition no_cycles_world : world float :=
  {| data_root := no_cycles; written := ∅ |}.

(** A cycle whose capacity matrix has one empty row. *)
Definition empty_capacity_row : cycle float :=
  {| relative_time_min := [0; 1]; current_A := [1.5; 1];
     voltage_V := [3.5; 4]; temperature_C := [25; 26];
     capacity := Arr2 [[]] |}.

Definition unflattenable : dataset float :=
  {| charge_dir := [[ [Examples.cycle_with 10; empty_capacity_row] ]];
     partial_charge_dir := [] |}.

Definition unflattenable_state : explorer float :=
  Eval vm_compute in Examples.ok_or (load_all unflattenable) (init "").

(** The explorer after [load_charge_data] alone on the synthetic input. *)
Definition charge_loaded : explorer float :=
  Eval vm_compute in
    Examples.ok_or (load_charge_data Examples.synthetic (init "output"))
      (init "").

(** The explorer after a second [load_charge_data] on the same object. *)
Definition charge_reloaded : explorer float :=
  Eval vm_compute in
    Examples.ok_or (load_charge_data Examples.synthetic charge_loaded)
      (init "").

(** The first cycle of the synthetic input, its capacity cell and its
    record. *)
Definition first_cycle : cycle float := Examples.cycle_with 10.

Definition first_capacity : value float :=
  Eval vm_compute in Examples.ok_or (index0 (capacity first_cycle)) (VInt 0).

Definition first_record : pydict float :=
  Eval vm_compute in
    Examples.ok_or (cycle_features "charge" 0 0 first_cycle first_capacity) [].

(** A charge battery whose second cycle has a NaN capacity. *)
Definition nan_capacity : dataset float :=
  {| charge_dir :=
       [[ [Examples.cycle_with 10; Examples.cycle_with nan;
           Examples.cycle_with 30] ]];
     partial_charge_dir := [] |}.

Definition nan_capacity_world : world float :=
  {| data_root := nan_capacity; written := ∅ |}.

End MoreExamples.

(** ** A concrete input in exact arithmetic *)

Module ExactExamples.
Import Exact.

Definition cycle_with (cap : R) : cycle xreal :=
  {| relative_time_min := XR <$> [0; 1]%R;
     current_A := XR <$> [1; 2]%R;
     voltage_V := XR <$> [3; 4]%R;
     temperature_C := XR <$> [25; 26]%R;
     capacity := Arr2 [[XR cap]] |}.

(** One charge cycle and two partial-charge cycles. *)
Definition single_charge : dataset xreal :=
  {| charge_dir := [[ [cycle_with 10] ]];
     partial_charge_dir := [[ [cycle_with 5; cycle_with 6] ]] |}.

Definition no_fmt (_ : xreal) : string := "".

Definition single_charge_state : explorer xreal :=
  Examples.ok_or (load_all single_charge) (init "").

Definition single_charge_summary : report xreal * gmap string string :=
  Examples.ok_or (summarize_dataset no_fmt single_charge_state ∅)
    ({| total_batteries := 0; total_cycles := 0; capacity_mean := XNaN;
        capacity_min := XNaN; capacity_max := XNaN; capacity_std := XNaN;
        summary_df := {| columns := []; rows := [] |};
        grouped_stats := [] |}, ∅).

End ExactExamples.

(** * Properties *)

(** ** The error monad and indexed traversal *)

Lemma bind_Ok {A B} (m : result A) (f : A → result B) (b : B) :
  m ≫= f = Ok b ↔ ∃ a, m = Ok a ∧ f a = Ok b.
Proof.
  destruct m as [a|e]; simpl; split.
  - intros Hf. by exists a.
  - by intros (a' & [= <-] & Hf).
  - discriminate.
  - by intros (a' & ? & _).
Qed.

Lemma bind_Raise {A B} (m : result A) (f : A → result B) (e : exn) :
  m = Raise e → m ≫= f = Raise e.
Proof. by intros ->. Qed.

(** [bind_inv H y Hy]: from [H : m ≫= k = Ok b] get [y], [Hy : m = Ok y]
    and [H : k y = Ok b]. *)
Ltac bind_inv H y Hy :=
  apply bind_Ok in H; destruct H as (y & Hy & H); simpl in H.

Section imapM_facts.
Context {A B : Type}.
Implicit Types (f : nat → A → result B) (l : list A).

Lemma imapM_cons f i x l :
  imapM f i (x :: l) = (y ← f i x; ys ← imapM f (S i) l; Ok (y :: ys)).
Proof. reflexivity. Qed.

Lemma imapM_length f i l (l' : list B) : imapM f i l = Ok l' → length l' = length l.
Proof.
  revert i l'. induction l as [|x l IH]; intros i l' Hl; simpl in Hl.
  - by injection Hl as <-.
  - bind_inv Hl y Hy. bind_inv Hl ys Hys. injection Hl as <-.
    simpl. f_equal. eauto.
Qed.

Lemma imapM_lookup f i l (l' : list B) j y :
  imapM f i l = Ok l' → l' !! j = Some y →
  ∃ x, l !! j = Some x ∧ f (i + j) x = Ok y.
Proof.
  revert i l' j. induction l as [|x l IH]; intros i l' j Hl Hj; simpl in Hl.
  - injection Hl as <-. by rewrite lookup_nil in Hj.
  - bind_inv Hl y0 Hy. bind_inv Hl ys Hys. injection Hl as <-.
    destruct j as [|j]; simpl in Hj.
    + injection Hj as <-. exists x. by rewrite Nat.add_0_r.
    + destruct (IH _ _ _ Hys Hj) as (x' & Hx' & Hf).
      exists x'. split; [done|]. by rewrite <-Nat.add_succ_comm.
Qed.

Lemma imapM_lookup_inv f i l (l' : list B) j x :
  imapM f i l = Ok l' → l !! j = Some x →
  ∃ y, l' !! j = Some y ∧ f (i + j) x = Ok y.
Proof.
  intros Hl Hj.
  destruct (lookup_lt_is_Some_2 l' j) as [y Hy].
  { rewrite (imapM_length _ _ _ _ Hl). by eapply lookup_lt_Some. }
  destruct (imapM_lookup _ _ _ _ _ _ Hl Hy) as (x' & Hx' & Hf).
  exists y. by simplify_eq.
Qed.

Lemma imapM_total f i l :
  (∀ j x, l !! j = Some x → ∃ y, f (i + j) x = Ok y) →
  ∃ l' : list B, imapM f i l = Ok l'.
Proof.
  revert i. induction l as [|x l IH]; intros i Hall; simpl.
  - by eexists.
  - destruct (Hall 0 x eq_refl) as [y Hy]. rewrite Nat.add_0_r in Hy.
    destruct (IH (S i)) as [l' Hl'].
    { intros j x' Hj. rewrite Nat.add_succ_comm. by apply (Hall (S j)). }
    rewrite Hy, Hl'. simpl. by eexists.
Qed.

Lemma imapM_fails f i l j x e :
  l !! j = Some x → f (i + j) x = Raise e → ∃ e', imapM f i l = Raise e'.
Proof.
  intros Hj Hf. destruct (imapM f i l) as [l'|e'] eqn:Hl; [|by eexists].
  destruct (imapM_lookup_inv _ _ _ _ _ _ Hl Hj) as (y & _ & Hy). congruence.
Qed.

Lemma imapM_app f i l1 l2 :
  imapM f i (l1 ++ l2) =
  (r1 ← imapM f i l1; r2 ← imapM f (i + length l1) l2; Ok (r1 ++ r2)).
Proof.
  revert i. induction l1 as [|x l1 IH]; intros i; simpl.
  - rewrite Nat.add_0_r. destruct (imapM f i l2); reflexivity.
  - destruct (f i x) as [y|e]; simpl; [|done].
    rewrite IH. replace (S i + length l1) with (i + S (length l1)) by lia.
    destruct (imapM f (S i) l1) as [r1|e]; simpl; [|done].
    destruct (imapM f (i + S (length l1)) l2); reflexivity.
Qed.

End imapM_facts.

Lemma mapM_Forall2 {A B} (f : A → result B) l l' :
  mapM f l = Ok l' ↔ Forall2 (λ x y, f x = Ok y) l l'.
Proof.
  unfold mapM. generalize 0. revert l'.
  induction l as [|x l IH]; intros l' i; simpl.
  - split; [intros [= <-]; constructor | by inversion 1].
  - split.
    + intros Hl. bind_inv Hl y Hy. bind_inv Hl ys Hys. injection Hl as <-.
      constructor; [done|]. by eapply IH.
    + inversion 1 as [|? y ? ys Hy Hys]; subst.
      rewrite Hy. simpl. apply (IH ys (S i)) in Hys. by rewrite Hys.
Qed.

(** ** numpy's summation follows its recursion *)

Section PairwiseSum.
Context {F : Type} `{Arith F}.
Implicit Types (a : list F).

Lemma pairwise_split_bounds n :
  128 < n → 0 < n / 2 - (n / 2) mod 8 < n.
Proof.
  intros Hn.
  pose proof (Nat.div_mod_eq n 2). pose proof (Nat.mod_upper_bound n 2).
  pose proof (Nat.mod_upper_bound (n / 2) 8). lia.
Qed.

(** The bound on nested splits is never reached: any two bounds of at
    least the length give the same sum. *)
Lemma pairwise_sum_go_depth d1 d2 a :
  length a ≤ d1 → length a ≤ d2 →
  pairwise_sum_go d1 a = pairwise_sum_go d2 a.
Proof.
  revert d2 a. induction d1 as [|d1 IH]; intros d2 a H1 H2.
  - destruct a; [|simpl in H1; lia]. by destruct d2.
  - destruct d2 as [|d2].
    { destruct a; [done|simpl in H2; lia]. }
    cbn [pairwise_sum_go].
    destruct (Nat.leb_spec (length a) 128) as [|Hbig]; [done|].
    pose proof (pairwise_split_bounds _ Hbig) as [Hlo Hhi].
    f_equal; apply IH; rewrite ?length_take, ?length_drop; lia.
Qed.

Lemma pairwise_sum_small a :
  length a < 8 → pairwise_sum a = foldl fadd fzero a.
Proof.
  intros Hlen. do 8 (destruct a as [|? a]; [done|]). simpl in Hlen. lia.
Qed.

Lemma pairwise_sum_block a :
  length a ≤ 128 → pairwise_sum a = block_sum a.
Proof.
  intros Hlen. unfold pairwise_sum.
  destruct (length a) as [|n] eqn:Hn; cbn [pairwise_sum_go]; rewrite Hn.
  - done.
  - by destruct (Nat.leb_spec (S n) 128) as [|]; [|lia].
Qed.

Lemma pairwise_sum_split a :
  128 < length a →
  pairwise_sum a
  = fadd (pairwise_sum (take (length a / 2 - (length a / 2) mod 8) a))
         (pairwise_sum (drop (length a / 2 - (length a / 2) mod 8) a)).
Proof.
  intros Hbig. pose proof (pairwise_split_bounds _ Hbig) as [Hlo Hhi].
  unfold pairwise_sum at 1.
  destruct (length a) as [|n] eqn:Hn; [lia|]. cbn [pairwise_sum_go].
  rewrite Hn. destruct (Nat.leb_spec (S n) 128) as [|_]; [lia|].
  unfold pairwise_sum.
  f_equal; apply pairwise_sum_go_depth;
    rewrite ?length_take, ?length_drop; lia.
Qed.

End PairwiseSum.

(** ** The loops compute the traversals *)

Section LoadFacts.
Context {F : Type} `{Arith F}.
Implicit Types (self : explorer F) (gs : list (string * battery_entry F)).

Lemma battery_group_eq ty b (cs : list (cycle F)) :
  battery_group ty b cs =
  (r ← imapM (extract_cycle ty b) 0 cs;
   Ok (battery_key (b + 1) ty,
       {| cycles := r.*1; capacities := r.*2 |})).
Proof. reflexivity. Qed.

Lemma cycle_loop_spec ty b i (cs : list (cycle F)) acc caps :
  cycle_loop ty b i cs acc caps =
  (r ← imapM (extract_cycle ty b) i cs;
   Ok (acc ++ r.*1, caps ++ r.*2)).
Proof.
  revert i acc caps. induction cs as [|c cs IH]; intros i acc caps; simpl.
  - by rewrite !app_nil_r.
  - destruct (extract_cycle ty b i c) as [fc|e]; simpl; [|done].
    rewrite IH. destruct (imapM _ (S i) cs) as [r|e]; simpl; [|done].
    by rewrite <-!app_assoc.
Qed.

Lemma battery_loop_spec ty b (mat : matfile F) self :
  battery_loop ty b mat self =
  (gs ← imapM (battery_group ty) b mat; Ok (store_all self gs)).
Proof.
  revert b self. induction mat as [|cs mat IH]; intros b self; [done|].
  rewrite imapM_cons. cbn [battery_loop]. rewrite cycle_loop_spec.
  rewrite (battery_group_eq ty b cs).
  destruct (imapM (extract_cycle ty b) 0 cs) as [r|e];
    cbn [mbind result_bind fst snd app]; [|done].
  rewrite IH. destruct (imapM (battery_group ty) (S b) mat); reflexivity.
Qed.

Lemma store_all_app self gs1 gs2 :
  store_all self (gs1 ++ gs2) = store_all (store_all self gs1) gs2.
Proof. apply foldl_app. Qed.

Lemma file_loop_spec ty (files : list (matfile F)) self :
  file_loop ty files self =
  (gs ← dir_groups ty files; Ok (store_all self gs)).
Proof.
  unfold dir_groups, mapM. generalize 0.
  revert self. induction files as [|mat files IH]; intros self i; [done|].
  rewrite imapM_cons. cbn [file_loop]. rewrite battery_loop_spec.
  fold (file_groups ty mat).
  destruct (file_groups ty mat) as [gs|e]; cbn [mbind result_bind]; [|done].
  rewrite (IH _ (S i)).
  destruct (imapM _ (S i) files) as [gss|e]; cbn [mbind result_bind mjoin];
    [|done].
  csimpl. by rewrite store_all_app.
Qed.

End LoadFacts.

(** ** Keys of the mapping *)

Lemma split_at_char c s1 s2 t1 t2 :
  occurs c s1 = false → occurs c s2 = false →
  s1 +:+ String c t1 = s2 +:+ String c t2 → s1 = s2 ∧ t1 = t2.
Proof.
  revert s2. induction s1 as [|a s1 IH]; intros [|b s2] H1 H2 Heq;
    simpl in *.
  - by injection Heq as ->.
  - injection Heq as <- _. by rewrite Ascii.eqb_refl in H2.
  - injection Heq as -> _. by rewrite Ascii.eqb_refl in H1.
  - injection Heq as -> Heq.
    apply orb_false_iff in H1 as [_ H1]. apply orb_false_iff in H2 as [_ H2].
    destruct (IH s2 H1 H2 Heq) as [-> ->]. done.
Qed.

Lemma pretty_N_go_occurs x s :
  occurs "_" s = false → occurs "_" (pretty_N_go x s) = false.
Proof.
  revert s. induction (N.lt_wf_0 x) as [x _ IH]; intros s Hs.
  assert (x = 0 ∨ 0 < x)%N as [->|Hx] by lia.
  - by rewrite pretty_N_go_0.
  - rewrite pretty_N_go_step by done. apply IH.
    + by apply N.div_lt.
    + simpl. rewrite Hs, orb_false_r.
      unfold pretty_N_char. by repeat case_match.
Qed.

Lemma pretty_nat_occurs (n : nat) : occurs "_" (pretty n) = false.
Proof.
  unfold pretty, pretty_nat, pretty, pretty_N.
  case_decide; [done|]. by apply pretty_N_go_occurs.
Qed.

(** The key determines the battery position and the cycle type. *)
Lemma battery_key_inj n1 t1 n2 t2 :
  battery_key n1 t1 = battery_key n2 t2 → n1 = n2 ∧ t1 = t2.
Proof.
  unfold battery_key. intros Heq. apply (inj (String.app "battery_")) in Heq.
  change ("_" +:+ t1) with (String "_" t1) in Heq.
  change ("_" +:+ t2) with (String "_" t2) in Heq.
  apply split_at_char in Heq as [Hn ->]; auto using pretty_nat_occurs.
  by apply (inj pretty) in Hn.
Qed.

(** ** Sequential insertion *)

Section InsertAll.
Context {F : Type} `{Arith F}.
Implicit Types (m : gmap string (battery_entry F))
  (gs : list (string * battery_entry F)) (self : explorer F).

Lemma insert_all_app m gs1 gs2 :
  insert_all m (gs1 ++ gs2) = insert_all (insert_all m gs1) gs2.
Proof. apply foldl_app. Qed.

Lemma insert_all_lookup_notin m gs k :
  k ∉ gs.*1 → insert_all m gs !! k = m !! k.
Proof.
  revert m. induction gs as [|[k' e] gs IH]; intros m Hk; simpl; [done|].
  rewrite fmap_cons, not_elem_of_cons in Hk. destruct Hk as [Hne Hk].
  rewrite IH by done. by rewrite lookup_insert_ne.
Qed.

(** The last group stored under a key is the one the mapping holds. *)
Lemma insert_all_lookup_last m gs1 gs2 k e :
  k ∉ gs2.*1 → insert_all m (gs1 ++ (k, e) :: gs2) !! k = Some e.
Proof.
  intros Hk. rewrite insert_all_app. simpl.
  rewrite insert_all_lookup_notin by done. apply lookup_insert_eq.
Qed.

Lemma insert_all_lookup_Some m gs k e :
  insert_all m gs !! k = Some e → (k, e) ∈ gs ∨ m !! k = Some e.
Proof.
  revert m. induction gs as [|[k' e'] gs IH]; intros m Hl; simpl in Hl;
    [by right|].
  apply IH in Hl as [Hin|Hl]; [left; by right|].
  rewrite lookup_insert in Hl. case_decide; simplify_eq.
  - left. by left.
  - by right.
Qed.

Lemma dom_insert_all m gs :
  dom (insert_all m gs) = dom m ∪ list_to_set gs.*1.
Proof.
  revert m. induction gs as [|[k e] gs IH]; intros m; csimpl.
  - by rewrite (right_id_L ∅ (∪)).
  - rewrite IH, dom_insert_L.
    by rewrite (comm_L (∪) {[k]} (dom m)), (assoc_L (∪)).
Qed.

Lemma cycle_count_sum_insert m k e :
  m !! k = None →
  cycle_count_sum (<[k := e]> m) = length (cycles e) + cycle_count_sum m.
Proof.
  intros Hk. unfold cycle_count_sum.
  rewrite map_fold_insert_L; [done| |done]. intros. lia.
Qed.

(** With pairwise distinct fresh keys nothing is replaced, and the entries
    of the mapping count every stored cycle. *)
Lemma cycle_count_sum_insert_all m gs :
  NoDup gs.*1 → (∀ k, k ∈ gs.*1 → m !! k = None) →
  cycle_count_sum (insert_all m gs) =
  cycle_count_sum m + sum_list_with (λ g, length (cycles g.2)) gs.
Proof.
  revert m. induction gs as [|[k e] gs IH]; intros m Hnd Hfresh; csimpl.
  - lia.
  - rewrite fmap_cons in Hnd. apply NoDup_cons in Hnd as [Hk Hnd].
    rewrite IH.
    + rewrite cycle_count_sum_insert; [lia|]. apply Hfresh. by left.
    + done.
    + intros k' Hk'. rewrite lookup_insert_ne; [|by intros ->].
      apply Hfresh. by right.
Qed.

Lemma store_all_battery_data self gs :
  battery_data (store_all self gs) = insert_all (battery_data self) gs.
Proof.
  revert self. induction gs as [|[k [cs caps]] gs IH]; intros self; [done|].
  simpl. by rewrite IH.
Qed.

Lemma store_all_summary_data self gs :
  summary_data (store_all self gs) =
  summary_data self ++ mjoin ((λ g, cycles g.2) <$> gs).
Proof.
  revert self. induction gs as [|[k [cs caps]] gs IH]; intros self; simpl.
  - by rewrite app_nil_r.
  - rewrite IH. simpl. by rewrite <-app_assoc.
Qed.

Lemma store_all_output_dir self gs :
  output_dir (store_all self gs) = output_dir self.
Proof.
  revert self. induction gs as [|g gs IH]; intros self; [done|].
  simpl. by rewrite IH.
Qed.

End InsertAll.

(** ** The groups of a subdirectory *)

Global Instance key_of_pair_inj : Inj (=) (=) key_of_pair.
Proof.
  intros [n1 t1] [n2 t2] Heq. unfold key_of_pair in Heq. simpl in Heq.
  apply battery_key_inj in Heq as [-> ->]. done.
Qed.

Section GroupFacts.
Context {F : Type} `{Arith F}.
Implicit Types (gs : list (string * battery_entry F)) (mat : matfile F)
  (files : list (matfile F)) (cs : list (cycle F)) (e : battery_entry F).

Lemma battery_group_Ok ty b cs k e :
  battery_group ty b cs = Ok (k, e) →
  k = battery_key (b + 1) ty ∧
  ∃ r, imapM (extract_cycle ty b) 0 cs = Ok r ∧ cycles e = r.*1
       ∧ capacities e = r.*2.
Proof.
  intros Hg. rewrite battery_group_eq in Hg. bind_inv Hg r Hr.
  injection Hg as <- <-. split; [done|]. by exists r.
Qed.

Lemma battery_group_length ty b cs k e :
  battery_group ty b cs = Ok (k, e) → length (cycles e) = length cs.
Proof.
  intros (_ & r & Hr & -> & _)%battery_group_Ok.
  rewrite length_fmap. by eapply imapM_length.
Qed.

Lemma imapM_battery_group_keys ty b mat gs :
  imapM (battery_group ty) b mat = Ok gs →
  gs.*1 = (λ i, battery_key (i + 1) ty) <$> seq b (length mat).
Proof.
  revert b gs. induction mat as [|cs mat IH]; intros b gs Hgs.
  - by injection Hgs as <-.
  - rewrite imapM_cons in Hgs. bind_inv Hgs g Hg. bind_inv Hgs gs' Hgs'.
    injection Hgs as <-. destruct g as [k e].
    apply battery_group_Ok in Hg as [-> _]. simpl. f_equal. by apply IH.
Qed.

Lemma imapM_battery_group_count ty b mat gs :
  imapM (battery_group ty) b mat = Ok gs →
  sum_list_with (λ g, length (cycles g.2)) gs = sum_list_with length mat.
Proof.
  revert b gs. induction mat as [|cs mat IH]; intros b gs Hgs.
  - by injection Hgs as <-.
  - rewrite imapM_cons in Hgs. bind_inv Hgs g Hg. bind_inv Hgs gs' Hgs'.
    injection Hgs as <-. destruct g as [k e]. simpl.
    rewrite (battery_group_length _ _ _ _ _ Hg). f_equal. by eapply IH.
Qed.

Lemma file_groups_keys ty mat gs :
  file_groups ty mat = Ok gs →
  gs.*1 = (λ i, key_of_pair (i + 1, ty)) <$> seq 0 (length mat).
Proof. apply imapM_battery_group_keys. Qed.

Lemma dir_groups_Ok ty files gs :
  dir_groups ty files = Ok gs ↔
  ∃ gss, Forall2 (λ mat g, file_groups ty mat = Ok g) files gss
         ∧ gs = mjoin gss.
Proof.
  unfold dir_groups. split.
  - intros Hd. bind_inv Hd gss Hgss. injection Hd as <-.
    exists gss. split; [|done]. by apply mapM_Forall2.
  - intros (gss & Hgss%mapM_Forall2 & ->). by rewrite Hgss.
Qed.

Lemma dir_groups_keys ty files gs :
  dir_groups ty files = Ok gs → gs.*1 = key_of_pair <$> dir_pairs ty files.
Proof.
  intros (gss & Hgss & ->)%dir_groups_Ok. unfold dir_pairs.
  induction Hgss as [|mat g files gss Hg _ IH]; [done|].
  simpl. rewrite !fmap_app, IH. f_equal.
  rewrite (file_groups_keys _ _ _ Hg), <-list_fmap_compose. done.
Qed.

Lemma dir_groups_count ty files gs :
  dir_groups ty files = Ok gs →
  sum_list_with (λ g, length (cycles g.2)) gs = dir_cycle_count files.
Proof.
  intros (gss & Hgss & ->)%dir_groups_Ok. unfold dir_cycle_count.
  induction Hgss as [|mat g files gss Hg _ IH]; [done|].
  simpl. rewrite sum_list_with_app, IH. f_equal.
  by eapply imapM_battery_group_count.
Qed.

(** Every stored group is the group of some battery of some file. *)
Lemma dir_groups_elem ty files gs k e :
  dir_groups ty files = Ok gs → (k, e) ∈ gs →
  ∃ mat b cs, mat ∈ files ∧ mat !! b = Some cs
              ∧ battery_group ty b cs = Ok (k, e).
Proof.
  intros (gss & Hgss & ->)%dir_groups_Ok Hin.
  apply list_elem_of_join in Hin as (g & Hin & Hg).
  apply list_elem_of_lookup in Hg as [i Hg].
  destruct (Forall2_lookup_r _ _ _ _ _ Hgss Hg) as (mat & Hmat & Hfg).
  apply list_elem_of_lookup in Hin as [b Hb].
  destruct (imapM_lookup _ _ _ _ _ _ Hfg Hb) as (cs & Hcs & Hbg).
  exists mat, b, cs. split; [by eapply list_elem_of_lookup_2|done].
Qed.

Lemma load_all_Ok (d : dataset F) (st : explorer F) :
  load_all d = Ok st ↔
  ∃ gc gp, dir_groups "charge" (charge_dir d) = Ok gc
           ∧ dir_groups "partial_charge" (partial_charge_dir d) = Ok gp
           ∧ st = store_all (init "output") (gc ++ gp).
Proof.
  unfold load_all, load_charge_data, load_partial_charge_data.
  rewrite file_loop_spec. split.
  - intros Hl. bind_inv Hl st1 Hst1. bind_inv Hst1 gc Hgc.
    injection Hst1 as <-. rewrite file_loop_spec in Hl. bind_inv Hl gp Hgp.
    injection Hl as <-. exists gc, gp. by rewrite store_all_app.
  - intros (gc & gp & -> & Hgp & ->). simpl. rewrite file_loop_spec, Hgp.
    simpl. by rewrite store_all_app.
Qed.

End GroupFacts.

(** ** Size of the summary table against the mapping *)

Section Counting.
Context {F : Type} `{Arith F}.

Lemma loaded_keys (d : dataset F) gc gp :
  dir_groups "charge" (charge_dir d) = Ok gc →
  dir_groups "partial_charge" (partial_charge_dir d) = Ok gp →
  (gc ++ gp).*1 = key_of_pair <$> loaded_pairs d.
Proof.
  intros Hgc Hgp. unfold loaded_pairs.
  by rewrite !fmap_app, (dir_groups_keys _ _ _ Hgc), (dir_groups_keys _ _ _ Hgp).
Qed.

Lemma summary_length_all (d : dataset F) (st : explorer F) :
  load_all d = Ok st →
  length (summary_data st) =
  dir_cycle_count (charge_dir d) + dir_cycle_count (partial_charge_dir d).
Proof.
  intros (gc & gp & Hgc & Hgp & ->)%load_all_Ok.
  rewrite store_all_summary_data. simpl.
  rewrite <-(dir_groups_count _ _ _ Hgc), <-(dir_groups_count _ _ _ Hgp).
  rewrite <-sum_list_with_app. generalize (gc ++ gp). intros gs.
  induction gs as [|g gs IH]; csimpl; [done|].
  by rewrite length_app, IH.
Qed.

(** C2 (amended): when no (battery position, cycle type) pair is loaded
    twice, that is, when no two files of one subdirectory both contain
    batteries, the length of the summary table after the two loads equals the
    sum over the entries of the mapping of the entry's cycle count. *)
Theorem summary_length_eq_group_sum (d : dataset F) (st : explorer F) :
  NoDup (loaded_pairs d) →
  load_all d = Ok st →
  length (summary_data st) = cycle_count_sum (battery_data st).
Proof.
  intros Hnd Hload. rewrite (summary_length_all _ _ Hload).
  apply load_all_Ok in Hload as (gc & gp & Hgc & Hgp & ->).
  rewrite store_all_battery_data. simpl.
  rewrite cycle_count_sum_insert_all.
  - unfold cycle_count_sum at 1. rewrite map_fold_empty.
    rewrite sum_list_with_app.
    by rewrite (dir_groups_count _ _ _ Hgc), (dir_groups_count _ _ _ Hgp).
  - rewrite (loaded_keys _ _ _ Hgc Hgp). by apply NoDup_fmap_2; [apply _|].
  - intros k _. apply lookup_empty.
Qed.

End Counting.

(** C2, as stated, fails: with two files in [charge/], each holding one
    battery of one cycle, the summary table has two records while the single
    entry [battery_1_charge] of the mapping counts one cycle. *)
Lemma summary_length_ne_group_sum_two_files :
  ∃ st, load_all Examples.two_files = Ok st
        ∧ length (summary_data st) = 2
        ∧ cycle_count_sum (battery_data st) = 1.
Proof. eexists. split; [vm_compute; reflexivity|]. split; vm_compute; reflexivity. Qed.

Lemma summary_length_eq_group_sum_witness :
  NoDup (loaded_pairs Examples.synthetic)
  ∧ ∃ st, load_all Examples.synthetic = Ok st
          ∧ length (summary_data st) = cycle_count_sum (battery_data st).
Proof.
  assert (NoDup (loaded_pairs Examples.synthetic)) as Hnd.
  { apply (bool_decide_unpack _). vm_compute. exact I. }
  split; [exact Hnd|].
  eexists. split; [vm_compute; reflexivity|].
  apply (summary_length_eq_group_sum Examples.synthetic);
    [exact Hnd | vm_compute; reflexivity].
Defined.

(** ** Empty signals *)

Section EmptySignal.
Context {F : Type} `{Arith F}.

Lemma cycle_features_empty_signal ty b j (c : cycle F) cap :
  has_empty_signal c → cycle_features ty b j c cap = Raise ValueError.
Proof.
  destruct c as [t cu v te capa]. unfold has_empty_signal, cycle_features.
  simpl. intros Hc.
  destruct t, cu, v, te; try reflexivity.
  exfalso. destruct Hc as [Hc|[Hc|[Hc|Hc]]]; discriminate.
Qed.

Lemma extract_cycle_empty_signal ty b j (c : cycle F) :
  has_empty_signal c →
  extract_cycle ty b j c = Raise ValueError
  ∨ extract_cycle ty b j c = Raise IndexError.
Proof.
  intros Hc. unfold extract_cycle.
  destruct (index0 (capacity c)) as [cap|e] eqn:Hcap; simpl.
  - left. by rewrite cycle_features_empty_signal.
  - right. destruct (capacity c) as [[|x xs]|[|r rs]]; by simplify_eq/=.
Qed.

Lemma dir_groups_empty_signal ty (files : list (matfile F)) (c : cycle F) :
  cycle_in files c → has_empty_signal c → ∃ e, dir_groups ty files = Raise e.
Proof.
  intros (mat & cs & Hmat & Hcs & Hc) Hempty.
  destruct (dir_groups ty files) as [gs|e] eqn:Hd; [exfalso|by eexists].
  apply dir_groups_Ok in Hd as (gss & Hgss & _).
  apply list_elem_of_lookup in Hmat as [i Hi].
  destruct (Forall2_lookup_l _ _ _ _ _ Hgss Hi) as (g & _ & Hg).
  apply list_elem_of_lookup in Hcs as [b Hb].
  destruct (imapM_lookup_inv _ _ _ _ _ _ Hg Hb) as ([k e] & _ & Hbg).
  apply battery_group_Ok in Hbg as (_ & r & Hr & _).
  apply list_elem_of_lookup in Hc as [j Hj].
  destruct (imapM_lookup_inv _ _ _ _ _ _ Hr Hj) as (y & _ & Hy).
  destruct (extract_cycle_empty_signal ty (0 + b) (0 + j) c Hempty); congruence.
Qed.

Lemma load_all_main fmt (w : world F) :
  main fmt w =
  (explorer ← load_all (data_root w);
   rf ← summarize_dataset fmt explorer (written w);
   Ok (rf.1, {| data_root := data_root w; written := rf.2 |})).
Proof.
  unfold main, load_all.
  destruct (load_charge_data (data_root w) (init "output")); reflexivity.
Qed.

(** C7: a cycle with an empty signal yields no record, only a [ValueError]
    from [np.max]; the load that meets it raises, and so does the whole
    run: [main] returns no report and writes no file. *)
Theorem empty_signal_is_fatal fmt (w : world F) (c : cycle F) :
  cycle_in (charge_dir (data_root w)) c
  ∨ cycle_in (partial_charge_dir (data_root w)) c →
  has_empty_signal c →
  (∀ ty b j cap, cycle_features ty b j c cap = Raise ValueError)
  ∧ (∀ ty b j r, extract_cycle ty b j c ≠ Ok r)
  ∧ ∃ e, load_all (data_root w) = Raise e ∧ main fmt w = Raise e.
Proof.
  intros Hin Hempty. split; [|split].
  - intros. by apply cycle_features_empty_signal.
  - intros ty b j r. destruct (extract_cycle_empty_signal ty b j c Hempty);
      congruence.
  - rewrite load_all_main.
    unfold load_all, load_charge_data, load_partial_charge_data.
    rewrite file_loop_spec.
    destruct Hin as [Hin|Hin].
    + destruct (dir_groups_empty_signal "charge" _ _ Hin Hempty) as [e ->].
      by exists e.
    + destruct (dir_groups "charge" _) as [gc|e]; simpl; [|by exists e].
      rewrite file_loop_spec.
      destruct (dir_groups_empty_signal "partial_charge" _ _ Hin Hempty)
        as [e ->].
      by exists e.
Qed.

End EmptySignal.

Lemma empty_signal_is_fatal_witness :
  (cycle_in (charge_dir (data_root Examples.broken)) Examples.no_temperature
   ∨ cycle_in (partial_charge_dir (data_root Examples.broken))
       Examples.no_temperature)
  ∧ has_empty_signal Examples.no_temperature
  ∧ ∃ e, main (λ _, "") Examples.broken = Raise e.
Proof.
  assert (cycle_in (charge_dir (data_root Examples.broken))
            Examples.no_temperature) as Hin.
  { eexists _, _. split; [apply list_elem_of_here|].
    split; [apply list_elem_of_here|].
    apply list_elem_of_further, list_elem_of_here. }
  assert (has_empty_signal Examples.no_temperature) as Hempty.
  { right. right. right. reflexivity. }
  split; [by left|]. split; [exact Hempty|].
  destruct (empty_signal_is_fatal (λ _, "") Examples.broken
              Examples.no_temperature (or_introl Hin) Hempty)
    as (_ & _ & e & _ & He).
  by exists e.
Defined.

(** ** Cycle indices within a group *)

Section CycleIdx.
Context {F : Type} `{Arith F}.

Lemma cycle_features_fields ty b j (c : cycle F) cap r :
  cycle_features ty b j c cap = Ok r →
  dict_keys r = feature_keys
  ∧ dict_get r "battery_id" = Some (VInt (b + 1))
  ∧ dict_get r "cycle_type" = Some (VStr ty)
  ∧ dict_get r "cycle_idx" = Some (VInt j)
  ∧ dict_get r "capacity" = Some cap.
Proof.
  unfold cycle_features. intros Hr.
  bind_inv Hr tm Htm. bind_inv Hr cm Hcm. bind_inv Hr vm Hvm.
  bind_inv Hr tem Htem. injection Hr as <-. by repeat split.
Qed.


(** What an entry of the mapping is: the group of one battery of one file
    of one of the two subdirectories. *)
Lemma battery_data_lookup (d : dataset F) (st : explorer F) k e :
  load_all d = Ok st → battery_data st !! k = Some e →
  ∃ ty files mat b cs,
    (ty, files) ∈ subdirs d ∧ mat ∈ files ∧ mat !! b = Some cs
    ∧ battery_group ty b cs = Ok (k, e).
Proof.
  intros (gc & gp & Hgc & Hgp & ->)%load_all_Ok Hk.
  rewrite store_all_battery_data in Hk. simpl in Hk.
  apply insert_all_lookup_Some in Hk as [Hin|Hk];
    [|by rewrite lookup_empty in Hk].
  apply elem_of_app in Hin as [Hin|Hin].
  - destruct (dir_groups_elem _ _ _ _ _ Hgc Hin) as (mat & b & cs & ? & ? & ?).
    exists "charge", (charge_dir d), mat, b, cs.
    split; [apply list_elem_of_here|done].
  - destruct (dir_groups_elem _ _ _ _ _ Hgp Hin) as (mat & b & cs & ? & ? & ?).
    exists "partial_charge", (partial_charge_dir d), mat, b, cs.
    split; [apply list_elem_of_further, list_elem_of_here|done].
Qed.


End CycleIdx.

(** ** The mapping is keyed by position and cycle type only *)

Lemma size_list_to_set_remove_dups `{Countable A} (l : list A) :
  size (list_to_set (C := gset A) l) = length (remove_dups l).
Proof.
  rewrite <-(size_list_to_set (C := gset A) (remove_dups l))
    by apply NoDup_remove_dups.
  f_equal. apply set_eq. intros x.
  by rewrite !elem_of_list_to_set, elem_of_remove_dups.
Qed.

Lemma remove_dups_fmap_length `{EqDecision A} `{EqDecision B} (f : A → B)
    `{!Inj (=) (=) f} (l : list A) :
  length (remove_dups (f <$> l)) = length (remove_dups l).
Proof.
  induction l as [|x l IH]; csimpl; [done|].
  destruct (decide_rel elem_of (f x) (f <$> l)) as [Hin|Hin];
    destruct (decide_rel elem_of x l) as [Hin'|Hin']; simpl; auto.
  - apply list_elem_of_fmap in Hin as (y & Hy%(inj f) & Hyl). by subst.
  - destruct Hin. apply list_elem_of_fmap. by exists x.
Qed.

Lemma remove_dups_length_le `{EqDecision A} (l : list A) :
  length (remove_dups l) ≤ length l.
Proof.
  induction l as [|x l IH]; simpl; [done|].
  destruct (decide_rel elem_of x l); simpl; lia.
Qed.

Section Overwrite.
Context {F : Type} `{Arith F}.
Implicit Types (gs : list (string * battery_entry F)) (mat : matfile F)
  (files : list (matfile F)) (cs : list (cycle F)) (e : battery_entry F).

Lemma dir_pairs_elem ty files p :
  p ∈ dir_pairs ty files ↔
  ∃ mat i, mat ∈ files ∧ i < length mat ∧ p = (i + 1, ty).
Proof.
  unfold dir_pairs. rewrite list_elem_of_bind. split.
  - intros (mat & Hp & Hmat). apply list_elem_of_fmap in Hp as (i & -> & Hi).
    apply elem_of_seq in Hi. exists mat, i. split; [done|]. split; [lia|done].
  - intros (mat & i & Hmat & Hi & ->). exists mat. split; [|done].
    apply list_elem_of_fmap. exists i. split; [done|].
    apply elem_of_seq. lia.
Qed.

(** Every battery of every file contributes its group. *)
Lemma dir_groups_elem_inv ty files gs mat b cs :
  dir_groups ty files = Ok gs → mat ∈ files → mat !! b = Some cs →
  ∃ e, battery_group ty b cs = Ok (battery_key (b + 1) ty, e)
       ∧ (battery_key (b + 1) ty, e) ∈ gs.
Proof.
  intros (gss & Hgss & ->)%dir_groups_Ok Hmat Hb.
  apply list_elem_of_lookup in Hmat as [i Hi].
  destruct (Forall2_lookup_l _ _ _ _ _ Hgss Hi) as (g & Hgi & Hg).
  destruct (imapM_lookup_inv _ _ _ _ _ _ Hg Hb) as ([k e] & Hgb & Hbg).
  simpl in Hbg. pose proof (battery_group_Ok _ _ _ _ _ Hbg) as [-> _].
  exists e. split; [done|]. apply list_elem_of_join. exists g.
  split; by eapply list_elem_of_lookup_2.
Qed.

(** The group of a battery whose position no later file of the
    subdirectory has is the last one stored under its key. *)
Lemma dir_groups_split ty pre mat post gs b cs :
  dir_groups ty (pre ++ mat :: post) = Ok gs →
  mat !! b = Some cs →
  (∀ mat', mat' ∈ post → length mat' ≤ b) →
  ∃ e g1 g2,
    battery_group ty b cs = Ok (battery_key (b + 1) ty, e)
    ∧ gs = g1 ++ (battery_key (b + 1) ty, e) :: g2
    ∧ battery_key (b + 1) ty ∉ g2.*1.
Proof.
  intros (gss & Hgss & ->)%dir_groups_Ok Hb Hpost.
  apply Forall2_app_inv_l in Hgss as (k1 & k2' & Hk1 & Hk2 & ->).
  apply Forall2_cons_inv_l in Hk2 as (g & k2 & Hg & Hk2 & ->).
  destruct (imapM_lookup_inv _ _ _ _ _ _ Hg Hb) as ([k e] & Hgb & Hbg).
  simpl in Hbg. pose proof (battery_group_Ok _ _ _ _ _ Hbg) as [-> _].
  exists e, (mjoin k1 ++ take b g), (drop (S b) g ++ mjoin k2).
  split; [done|]. split.
  - rewrite join_app. csimpl. rewrite <-(take_drop_middle g b _ Hgb) at 1.
    by rewrite <-!app_assoc.
  - rewrite fmap_app, not_elem_of_app. split.
    + rewrite fmap_drop, (file_groups_keys _ _ _ Hg), <-fmap_drop, drop_seq.
      intros (i & Hk & Hi)%list_elem_of_fmap.
      change (battery_key (b + 1) ty) with (key_of_pair (b + 1, ty)) in Hk.
      apply (inj key_of_pair) in Hk. apply elem_of_seq in Hi.
      injection Hk as Hk. lia.
    + assert (dir_groups ty post = Ok (mjoin k2)) as Hd.
      { apply dir_groups_Ok. by exists k2. }
      rewrite (dir_groups_keys _ _ _ Hd).
      intros (p & Hk & Hp)%list_elem_of_fmap.
      change (battery_key (b + 1) ty) with (key_of_pair (b + 1, ty)) in Hk.
      apply (inj key_of_pair) in Hk as <-.
      apply dir_pairs_elem in Hp as (mat' & i & Hmat' & Hi & Hp).
      apply Hpost in Hmat'. injection Hp as Hp. lia.
Qed.

Lemma key_not_in_other_dir ty ty' files gs n :
  ty ≠ ty' → dir_groups ty' files = Ok gs → battery_key n ty ∉ gs.*1.
Proof.
  intros Hne Hd. rewrite (dir_groups_keys _ _ _ Hd).
  intros (p & Hk & Hp)%list_elem_of_fmap.
  apply dir_pairs_elem in Hp as (mat & i & _ & _ & ->).
  by apply battery_key_inj in Hk as [_ ?].
Qed.

Lemma size_battery_data (d : dataset F) (st : explorer F) :
  load_all d = Ok st →
  size (battery_data st) = length (remove_dups (loaded_pairs d)).
Proof.
  intros (gc & gp & Hgc & Hgp & ->)%load_all_Ok.
  rewrite store_all_battery_data. simpl.
  rewrite <-(size_dom (D := gset string)), dom_insert_all, dom_empty_L.
  rewrite (left_id_L ∅ (∪)), (loaded_keys _ _ _ Hgc Hgp).
  rewrite size_list_to_set_remove_dups.
  apply remove_dups_fmap_length, _.
Qed.

End Overwrite.

(** With the two files of [Examples.two_files] the summary table holds two
    rows with the same (battery_id, cycle_type, cycle_idx): the rows of the
    replaced group stay in the table. *)
Example two_files_repeated_index :
  ∃ st, load_all Examples.two_files = Ok st
        ∧ (λ r, take 3 r.*2) <$> summary_data st
          = [ [VInt 1; VStr "charge"; VInt 0];
              [VInt 1; VStr "charge"; VInt 0] ].
Proof. eexists. split; [vm_compute; reflexivity|reflexivity]. Qed.

(** With the two files of [Examples.two_files] the mapping has one entry
    although two (file, battery) pairs were loaded. *)
Example two_files_one_entry :
  ∃ st, load_all Examples.two_files = Ok st
        ∧ size (battery_data st) = 1
        ∧ length (loaded_pairs Examples.two_files) = 2.
Proof. eexists. split; [vm_compute; reflexivity|]. split; vm_compute; reflexivity. Qed.

(** ** The records of a load *)

Section Records.
Context {F : Type} `{Arith F}.
Implicit Types (r : pydict F) (data : list (pydict F)) (ts : list (string * F)).

Lemma index0_has_shape (a : ndarray F) v : index0 a = Ok v → index0_shape v.
Proof. destruct a as [[|x xs]|[|r rs]]; intros; by simplify_eq/=. Qed.

Lemma cycle_features_is_record ty b j (c : cycle F) cap r :
  index0_shape cap → cycle_features ty b j c cap = Ok r → is_record r ty cap.
Proof.
  unfold cycle_features. intros Hcap Hr.
  bind_inv Hr tM HtM. bind_inv Hr cM HcM. bind_inv Hr vM HvM.
  bind_inv Hr eM HeM. injection Hr as <-. by constructor.
Qed.

Lemma battery_group_records ty b (cs : list (cycle F)) k e :
  battery_group ty b cs = Ok (k, e) →
  Forall (λ r, ∃ c cap, c ∈ cs ∧ index0 (capacity c) = Ok cap
                        ∧ is_record r ty cap) (cycles e).
Proof.
  intros (_ & rs & Hrs & -> & _)%battery_group_Ok.
  apply Forall_lookup. intros j r Hj. rewrite list_lookup_fmap in Hj.
  destruct (rs !! j) as [[r' cap]|] eqn:Hrj; simplify_eq/=.
  destruct (imapM_lookup _ _ _ _ _ _ Hrs Hrj) as (c & Hc & Hx).
  unfold extract_cycle in Hx. bind_inv Hx cap' Hcap. bind_inv Hx r' Hr'.
  injection Hx as <- <-. exists c, cap'.
  split; [by eapply list_elem_of_lookup_2|]. split; [done|].
  eapply cycle_features_is_record; [|done]. by eapply index0_has_shape.
Qed.

(** Every record of the summary table comes from a cycle of one of the
    two subdirectories. *)
Lemma summary_data_sources (d : dataset F) (st : explorer F) :
  load_all d = Ok st →
  Forall (λ r, ∃ ty files c cap,
            (ty, files) ∈ subdirs d ∧ cycle_in files c
            ∧ index0 (capacity c) = Ok cap ∧ is_record r ty cap)
    (summary_data st).
Proof.
  intros (gc & gp & Hgc & Hgp & ->)%load_all_Ok.
  rewrite store_all_summary_data. simpl.
  apply Forall_forall. intros r (l & Hr & Hl)%list_elem_of_join.
  apply list_elem_of_fmap in Hl as ([k e] & -> & Hin). simpl in Hr.
  apply elem_of_app in Hin as [Hin|Hin].
  - destruct (dir_groups_elem _ _ _ _ _ Hgc Hin)
      as (mat & b & cs & Hmat & Hb & Hg).
    apply battery_group_records in Hg. rewrite Forall_forall in Hg.
    destruct (Hg r Hr) as (c & cap & Hc & Hcap & Hrec).
    exists "charge", (charge_dir d), c, cap.
    split; [apply list_elem_of_here|]. split; [|done].
    exists mat, cs. split; [done|]. split; [|done].
    by eapply list_elem_of_lookup_2.
  - destruct (dir_groups_elem _ _ _ _ _ Hgp Hin)
      as (mat & b & cs & Hmat & Hb & Hg).
    apply battery_group_records in Hg. rewrite Forall_forall in Hg.
    destruct (Hg r Hr) as (c & cap & Hc & Hcap & Hrec).
    exists "partial_charge", (partial_charge_dir d), c, cap.
    split; [apply list_elem_of_further, list_elem_of_here|]. split; [|done].
    exists mat, cs. split; [done|]. split; [|done].
    by eapply list_elem_of_lookup_2.
Qed.

Lemma summary_data_records (d : dataset F) (st : explorer F) :
  load_all d = Ok st →
  Forall (λ r, ∃ ty cap, is_record r ty cap) (summary_data st).
Proof.
  intros Hload. eapply Forall_impl; [by apply summary_data_sources|].
  intros r (ty & _ & _ & cap & _ & _ & _ & Hr). eauto.
Qed.

Lemma is_record_keys r ty cap : is_record r ty cap → dict_keys r = feature_keys.
Proof. by destruct 1. Qed.

Lemma frame_columns_records data :
  data ≠ [] → Forall (λ r, dict_keys r = feature_keys) data →
  frame_columns data = feature_keys.
Proof.
  unfold frame_columns. destruct data as [|r data]; [done|]. intros _ Hall.
  apply Forall_cons in Hall as [Hr Hall]. simpl. rewrite Hr.
  change (foldl add_key [] feature_keys) with feature_keys.
  induction Hall as [|r' data Hr' _ IH]; [done|].
  simpl. rewrite Hr'. exact IH.
Qed.

End Records.

(** ** [summarize_dataset] on the records of a load *)

Lemma imapM_const_start {A B} (f : A → result B) i j l :
  imapM (λ _, f) i l = imapM (λ _, f) j l.
Proof.
  revert i j. induction l as [|x l IH]; intros i j; [done|].
  rewrite !imapM_cons. by rewrite (IH (S i) (S j)).
Qed.

Lemma mapM_cons {A B} (f : A → result B) x l :
  mapM f (x :: l) = (y ← f x; ys ← mapM f l; Ok (y :: ys)).
Proof.
  unfold mapM. rewrite imapM_cons. by rewrite (imapM_const_start f 1 0).
Qed.

Lemma mapM_total {A B} (f : A → result B) (g : A → B) l :
  Forall (λ x, f x = Ok (g x)) l → mapM f l = Ok (g <$> l).
Proof.
  induction 1 as [|x l Hx _ IH]; [done|].
  rewrite mapM_cons, Hx, IH. done.
Qed.

Section Summarize.
Context {F : Type} `{Arith F}.
Implicit Types (r : pydict F) (data : list (pydict F)) (ts : list (string * F))
  (xs : list F).

Lemma flat_records_are_records data ts :
  Forall2 flat_record data ts →
  Forall (λ r, ∃ ty cap, is_record r ty cap) data.
Proof.
  induction 1 as [|r t data ts (cap & Hr & _) _ IH]; constructor; eauto.
Qed.

Lemma DataFrame_of_records data :
  data ≠ [] → Forall (λ r, ∃ ty cap, is_record r ty cap) data →
  DataFrame_of data = {| columns := feature_keys; rows := (λ r, r.*2) <$> data |}.
Proof.
  intros Hne Hall. unfold DataFrame_of. rewrite frame_columns_records; [|done|].
  - f_equal. apply Forall_fmap_ext. eapply Forall_impl; [exact Hall|].
    intros r (ty & cap & Hr). by destruct Hr.
  - eapply Forall_impl; [exact Hall|].
    intros r (ty & cap & Hr). by eapply is_record_keys.
Qed.

Lemma df_getitem_capacity (R : list (list (value F))) :
  df_getitem {| columns := feature_keys; rows := R |} "capacity"
  = Ok ((λ row, default missing (row !! 11)) <$> R).
Proof. reflexivity. Qed.

Lemma capacity_column data ts :
  Forall2 flat_record data ts →
  mapM flatten_capacity
    ((λ row, default missing (row !! 11)) <$> ((λ r, r.*2) <$> data))
  = Ok (VFloat <$> ts.*2).
Proof.
  induction 1 as [|r t data ts (cap & Hr & Hcap) _ IH]; [done|].
  csimpl. rewrite mapM_cons, IH. destruct Hr. simpl. by rewrite Hcap.
Qed.

Lemma to_float_floats xs : mapM to_float (VFloat <$> xs) = Ok xs.
Proof.
  induction xs as [|x xs IH]; [done|]. csimpl. by rewrite mapM_cons, IH.
Qed.

Lemma final_rows data ts :
  Forall2 flat_record data ts →
  delete 11 <$> zip_with (λ row v, row ++ [v]) ((λ r, r.*2) <$> data)
                  (VFloat <$> ts.*2)
  = zip_with final_row data ts.*2.
Proof.
  induction 1 as [|r t data ts (cap & Hr & Hcap) _ IH]; [done|].
  csimpl. rewrite IH. f_equal. by destruct Hr.
Qed.

Lemma cycle_type_column data ts :
  Forall2 flat_record data ts →
  mapM to_str
    ((λ row, default missing (row !! 1)) <$> zip_with final_row data ts.*2)
  = Ok ts.*1.
Proof.
  induction 1 as [|r t data ts (cap & Hr & Hcap) _ IH]; [done|].
  csimpl. rewrite mapM_cons, IH. by destruct Hr.
Qed.

Lemma flattened_column data ts :
  Forall2 flat_record data ts →
  mapM to_float
    ((λ row, default missing (row !! 11)) <$> zip_with final_row data ts.*2)
  = Ok ts.*2.
Proof.
  induction 1 as [|r t data ts (cap & Hr & Hcap) _ IH]; [done|].
  csimpl. rewrite mapM_cons, IH. by destruct Hr.
Qed.

Lemma group_values_caps_of ts g :
  group_values ts.*1 ts.*2 g = caps_of g ts.
Proof. unfold group_values, caps_of. by rewrite zip_fst_snd. Qed.

Lemma caps_of_nonempty g ts : g ∈ ts.*1 → caps_of g ts ≠ [].
Proof.
  intros ([g' x] & -> & Hin)%list_elem_of_fmap. unfold caps_of.
  assert ((g', x) ∈ filter (λ t : string * F, t.1 = (g', x).1) ts) as Hf.
  { by apply list_elem_of_filter. }
  intros Hnil. apply fmap_nil_inv in Hnil. rewrite Hnil in Hf.
  by apply not_elem_of_nil in Hf.
Qed.

Lemma grouped_exists ts :
  grouped_of ts
    ((λ g, (g, aggregate (group_values ts.*1 ts.*2 g)))
       <$> merge_sort String.le (remove_dups ts.*1)).
Proof.
  unfold grouped_of. apply Forall2_fmap_r, Forall_Forall2_diag, Forall_forall.
  intros g _. simpl. by rewrite group_values_caps_of.
Qed.

Lemma np_min_nonempty xs : xs ≠ [] → ∃ m, np_min xs = Ok m.
Proof. destruct xs; [done|]. by eexists. Qed.

Lemma np_max_nonempty xs : xs ≠ [] → ∃ m, np_max xs = Ok m.
Proof. destruct xs; [done|]. by eexists. Qed.

(** What [summarize_dataset] returns when every capacity cell unwraps. *)
Lemma summarize_dataset_Ok fmt (st : explorer F) ts :
  summary_data st ≠ [] →
  Forall2 flat_record (summary_data st) ts →
  ∃ mn mx grouped,
    np_min ts.*2 = Ok mn ∧ np_max ts.*2 = Ok mx ∧ grouped_of ts grouped
    ∧ ∀ fs, summarize_dataset fmt st fs =
      Ok ({| total_batteries := size (battery_data st);
             total_cycles := length (summary_data st);
             capacity_mean := np_mean ts.*2;
             capacity_min := mn;
             capacity_max := mx;
             capacity_std := np_std ts.*2;
             summary_df :=
               {| columns := summary_columns;
                  rows := zip_with final_row (summary_data st) ts.*2 |};
             grouped_stats := grouped |},
          <[path_join (output_dir st) "battery_cycle_type_summary.csv" :=
              grouped_to_csv fmt grouped]>
            (<[path_join (output_dir st) "battery_cycle_summary.csv" :=
                to_csv fmt
                  {| columns := summary_columns;
                     rows := zip_with final_row (summary_data st) ts.*2 |}]>
               fs)).
Proof.
  intros Hne Hts.
  assert (ts.*2 ≠ []) as Hxs.
  { intros Hnil%fmap_nil_inv. subst. by apply Forall2_nil_inv_r in Hts. }
  destruct (np_min_nonempty _ Hxs) as [mn Hmn].
  destruct (np_max_nonempty _ Hxs) as [mx Hmx].
  eexists mn, mx, _. split; [done|]. split; [done|].
  split; [apply grouped_exists|]. intros fs.
  unfold summarize_dataset.
  rewrite (DataFrame_of_records _ Hne (flat_records_are_records _ _ Hts)).
  rewrite df_getitem_capacity. cbn [mbind result_bind].
  rewrite (capacity_column _ _ Hts). cbn [mbind result_bind].
  rewrite to_float_floats. cbn [mbind result_bind].
  rewrite Hmn, Hmx. cbn [mbind result_bind].
  change (df_drop (df_setitem _ "flattened_capacity" ?flat) "capacity")
    with (Ok {| columns := summary_columns;
                rows := delete 11 <$> zip_with (λ row v, row ++ [v])
                          ((λ r : pydict F, r.*2) <$> summary_data st) flat |}).
  cbn [mbind result_bind]. rewrite (final_rows _ _ Hts).
  unfold groupby_agg.
  change (df_getitem {| columns := summary_columns; rows := ?R |} "cycle_type")
    with (Ok ((λ row : list (value F), default missing (row !! 1)) <$> R)).
  cbn [mbind result_bind].
  change (df_getitem {| columns := summary_columns; rows := ?R |}
            "flattened_capacity")
    with (Ok ((λ row : list (value F), default missing (row !! 11)) <$> R)).
  cbn [mbind result_bind].
  rewrite (cycle_type_column _ _ Hts). cbn [mbind result_bind].
  rewrite (flattened_column _ _ Hts). cbn [mbind result_bind].
  reflexivity.
Qed.

End Summarize.

Section SummarizeInv.
Context {F : Type} `{Arith F}.
Implicit Types (r : pydict F) (data : list (pydict F)) (ts : list (string * F))
  (xs : list F).

Lemma flatten_index0_shape (cap v : value F) :
  index0_shape cap → flatten_capacity cap = Ok v → ∃ x, v = VFloat x.
Proof.
  destruct cap as [n|s|x|[|x l]]; simpl; intros Hs Hv; try done;
    injection Hv as <-; by eexists.
Qed.

Lemma capacity_column_inv data flat :
  Forall (λ r, ∃ ty cap, is_record r ty cap) data →
  mapM flatten_capacity
    ((λ row, default missing (row !! 11)) <$> ((λ r, r.*2) <$> data))
  = Ok flat →
  ∃ ts, Forall2 flat_record data ts.
Proof.
  intros Hall. revert flat.
  induction Hall as [|r data (ty & cap & Hr) _ IH]; intros flat Hflat.
  - exists []. constructor.
  - csimpl in Hflat. rewrite mapM_cons in Hflat.
    bind_inv Hflat v Hv. bind_inv Hflat vs Hvs.
    destruct (IH _ Hvs) as [ts Hts].
    assert (∃ x, flatten_capacity cap = Ok (VFloat x)) as [x Hx].
    { destruct Hr as [???????????? Hshape]. simpl in Hv.
      destruct (flatten_index0_shape _ _ Hshape Hv) as [x ->]. by exists x. }
    exists ((ty, x) :: ts). constructor; [|done]. by exists cap.
Qed.

(** If [summarize_dataset] returns on the records of a load, the table is
    not empty and every capacity cell unwrapped to a scalar. *)
Lemma summarize_dataset_inv fmt (st : explorer F) fs res :
  Forall (λ r, ∃ ty cap, is_record r ty cap) (summary_data st) →
  summarize_dataset fmt st fs = Ok res →
  summary_data st ≠ [] ∧ ∃ ts, Forall2 flat_record (summary_data st) ts.
Proof.
  intros Hall Hs.
  assert (summary_data st ≠ []) as Hne.
  { intros Hnil. unfold summarize_dataset in Hs. rewrite Hnil in Hs.
    discriminate. }
  split; [done|]. unfold summarize_dataset in Hs.
  rewrite (DataFrame_of_records _ Hne Hall), df_getitem_capacity in Hs.
  cbn [mbind result_bind] in Hs. bind_inv Hs flat Hflat.
  by eapply capacity_column_inv.
Qed.

Lemma flat_record_capacity r t :
  flat_record r t → capacity_of r = Some t.2 ∧ cycle_type_of r = Some t.1.
Proof.
  intros (cap & Hr & Hcap). destruct Hr as [???????????? Hshape].
  split; [|done]. unfold capacity_of. simpl.
  destruct cap as [n|s|x|[|x l]]; by simplify_eq/=.
Qed.

Lemma all_capacities_flat data ts :
  Forall2 flat_record data ts → all_capacities data = ts.*2.
Proof.
  unfold all_capacities.
  induction 1 as [|r t data ts [Hc _]%flat_record_capacity _ IH]; [done|].
  csimpl. by rewrite Hc, IH.
Qed.

Lemma group_capacities_flat data ts g :
  Forall2 flat_record data ts → group_capacities data g = caps_of g ts.
Proof.
  unfold group_capacities, caps_of.
  induction 1 as [|r t data ts [Hc Ht]%flat_record_capacity _ IH]; [done|].
  rewrite !filter_cons. rewrite Ht.
  destruct (decide (Some t.1 = Some g)) as [Heq|Hne].
  - injection Heq as Heq. rewrite decide_True by done. csimpl.
    by rewrite Hc, IH.
  - rewrite decide_False by congruence. done.
Qed.

End SummarizeInv.

(** ** Standard deviations *)

Section Std.
Context {F : Type} `{Arith F}.
Implicit Types (xs : list F).

(** A group with a single record: whether its capacity is counted or is a
    NaN and left out, no more than one value is counted. *)
Lemma pd_std_single xs : length xs = 1 → pd_std 1 xs = fnan.
Proof.
  destruct xs as [|x [|??]]; try done. intros _.
  unfold pd_std. simpl. by destruct (fisnan x).
Qed.

(** What [summarize_dataset] computed, on the table of a load. *)
Lemma summarize_after_load fmt (d : dataset F) (st : explorer F) fs rep fs' :
  load_all d = Ok st →
  summarize_dataset fmt st fs = Ok (rep, fs') →
  ∃ ts, Forall2 flat_record (summary_data st) ts
        ∧ summary_data st ≠ []
        ∧ capacity_std rep = np_std ts.*2
        ∧ capacity_mean rep = np_mean ts.*2
        ∧ np_min ts.*2 = Ok (capacity_min rep)
        ∧ np_max ts.*2 = Ok (capacity_max rep)
        ∧ total_batteries rep = size (battery_data st)
        ∧ total_cycles rep = length (summary_data st)
        ∧ summary_df rep =
            {| columns := summary_columns;
               rows := zip_with final_row (summary_data st) ts.*2 |}
        ∧ grouped_of ts (grouped_stats rep)
        ∧ fs' =
            <[path_join (output_dir st) "battery_cycle_type_summary.csv" :=
                grouped_to_csv fmt (grouped_stats rep)]>
              (<[path_join (output_dir st) "battery_cycle_summary.csv" :=
                  to_csv fmt (summary_df rep)]> fs).
Proof.
  intros Hload Hs.
  destruct (summarize_dataset_inv _ _ _ _ (summary_data_records _ _ Hload) Hs)
    as (Hne & ts & Hts).
  destruct (summarize_dataset_Ok fmt st ts Hne Hts)
    as (mn & mx & grouped & Hmn & Hmx & Hg & Hs').
  rewrite Hs' in Hs. injection Hs as <- <-. exists ts. by repeat split.
Qed.

End Std.

(** ** The mapping is keyed by position: the statement *)

Section KeyedByPosition.
Context {F : Type} `{Arith F}.

(** C10: the mapping is keyed by battery position and cycle type only.
    After the two loads, (1) its size is the number of distinct
    (position, cycle type) pairs loaded; (2) the entry under the key of a
    position is the group built from the last file of the subdirectory that
    has a battery at this position, whatever earlier files held there;
    (3) the summary table keeps the records of every battery of every file,
    and its length counts all of them; (4) the total battery count that
    [summarize_dataset] reports is the size of the mapping, the number of
    distinct pairs, at most the number of (file, battery) pairs loaded. *)
Theorem battery_data_keyed_by_position (d : dataset F) (st : explorer F) :
  load_all d = Ok st →
  size (battery_data st) = length (remove_dups (loaded_pairs d))
  ∧ (∀ ty files pre mat post b cs,
       (ty, files) ∈ subdirs d → files = pre ++ mat :: post →
       mat !! b = Some cs → (∀ mat', mat' ∈ post → length mat' ≤ b) →
       ∃ e, battery_group ty b cs = Ok (battery_key (b + 1) ty, e)
            ∧ battery_data st !! battery_key (b + 1) ty = Some e)
  ∧ (∀ ty files mat b cs,
       (ty, files) ∈ subdirs d → mat ∈ files → mat !! b = Some cs →
       ∃ e, battery_group ty b cs = Ok (battery_key (b + 1) ty, e)
            ∧ ∀ r, r ∈ cycles e → r ∈ summary_data st)
  ∧ length (summary_data st) =
    dir_cycle_count (charge_dir d) + dir_cycle_count (partial_charge_dir d)
  ∧ (∀ fmt fs rep fs',
       summarize_dataset fmt st fs = Ok (rep, fs') →
       total_batteries rep = length (remove_dups (loaded_pairs d))
       ∧ total_batteries rep ≤ length (loaded_pairs d)
       ∧ total_cycles rep = length (summary_data st)).
Proof.
  intros Hload. split; [by apply size_battery_data|].
  split; [|split; [|split; [by apply summary_length_all|]]]; cycle 2.
  { intros fmt fs rep fs' Hs.
    destruct (summarize_after_load _ _ _ _ _ _ Hload Hs)
      as (ts & _ & _ & _ & _ & _ & _ & -> & -> & _).
    rewrite (size_battery_data _ _ Hload).
    split; [done|]. split; [apply remove_dups_length_le|done]. }
  - apply load_all_Ok in Hload as (gc & gp & Hgc & Hgp & ->).
    intros ty files pre mat post b cs Hsub Hfiles Hb Hpost.
    rewrite store_all_battery_data. simpl.
    apply elem_of_cons in Hsub as [[= -> ->]|Hsub].
    + rewrite Hfiles in Hgc.
      destruct (dir_groups_split _ _ _ _ _ _ _ Hgc Hb Hpost)
        as (e & g1 & g2 & Hg & -> & Hk).
      exists e. split; [done|]. rewrite <-app_assoc. csimpl.
      apply insert_all_lookup_last. rewrite fmap_app, not_elem_of_app.
      split; [done|].
      by apply (key_not_in_other_dir "charge" "partial_charge"
                  (partial_charge_dir d)).
    + apply list_elem_of_singleton in Hsub as [= -> ->].
      rewrite Hfiles in Hgp.
      destruct (dir_groups_split _ _ _ _ _ _ _ Hgp Hb Hpost)
        as (e & g1 & g2 & Hg & -> & Hk).
      exists e. split; [done|]. rewrite app_assoc.
      by apply insert_all_lookup_last.
  - apply load_all_Ok in Hload as (gc & gp & Hgc & Hgp & ->).
    intros ty files mat b cs Hsub Hmat Hb.
    assert (∃ e, battery_group ty b cs = Ok (battery_key (b + 1) ty, e)
                 ∧ (battery_key (b + 1) ty, e) ∈ gc ++ gp) as (e & Hg & Hin).
    { apply elem_of_cons in Hsub as [[= -> ->]|Hsub].
      - destruct (dir_groups_elem_inv _ _ _ _ _ _ Hgc Hmat Hb) as (e & ? & ?).
        exists e. split; [done|]. apply elem_of_app. by left.
      - apply list_elem_of_singleton in Hsub as [= -> ->].
        destruct (dir_groups_elem_inv _ _ _ _ _ _ Hgp Hmat Hb) as (e & ? & ?).
        exists e. split; [done|]. apply elem_of_app. by right. }
    exists e. split; [done|]. intros r Hr.
    rewrite store_all_summary_data. simpl. apply list_elem_of_join.
    exists (cycles e). split; [done|].
    apply list_elem_of_fmap. by eexists (_, e).
Qed.

End KeyedByPosition.

(** ** A group with a single record *)

Section SingleRecord.
Context {F : Type} `{Arith F}.
Implicit Types (r : pydict F) (data : list (pydict F)) (ts : list (string * F)).

Lemma flatten_capacity_ok (c : cycle F) cap :
  capacity_ok c → index0 (capacity c) = Ok cap →
  ∃ x, flatten_capacity cap = Ok (VFloat x).
Proof.
  unfold capacity_ok.
  destruct (capacity c) as [[|x xs]|[|[|x row] rows]]; intros Hok Hcap;
    try done; injection Hcap as <-; by eexists.
Qed.

Lemma flat_records_exist data :
  Forall (λ r, ∃ t, flat_record r t) data → ∃ ts, Forall2 flat_record data ts.
Proof.
  induction 1 as [|r data [t Ht] _ [ts IH]].
  - exists []. constructor.
  - exists (t :: ts). by constructor.
Qed.

(** With well-formed capacity fields every record of a load unwraps. *)
Lemma load_all_flat (d : dataset F) (st : explorer F) :
  load_all d = Ok st →
  (∀ c, cycle_in (charge_dir d) c ∨ cycle_in (partial_charge_dir d) c →
        capacity_ok c) →
  ∃ ts, Forall2 flat_record (summary_data st) ts.
Proof.
  intros Hload Hok. apply flat_records_exist.
  eapply Forall_impl; [by apply summary_data_sources|].
  intros r (ty & files & c & cap & Hsub & Hin & Hcap & Hr).
  assert (capacity_ok c) as Hc.
  { apply Hok. apply elem_of_cons in Hsub as [[= -> ->]|Hsub]; [by left|].
    apply list_elem_of_singleton in Hsub as [= -> ->]. by right. }
  destruct (flatten_capacity_ok _ _ Hc Hcap) as [x Hx].
  exists (ty, x), cap. done.
Qed.

Lemma type_count data ts ty :
  Forall2 flat_record data ts →
  length (filter (λ r, cycle_type_of r = Some ty) data)
  = length (caps_of ty ts).
Proof.
  unfold caps_of. rewrite length_fmap.
  induction 1 as [|r t data ts [_ Ht]%flat_record_capacity _ IH]; [done|].
  rewrite !filter_cons, Ht.
  destruct (decide (Some t.1 = Some ty)) as [Heq|Hne].
  - injection Heq as Heq. rewrite decide_True by done. simpl. by rewrite IH.
  - rewrite decide_False by congruence. done.
Qed.

Lemma caps_of_elem ty ts : caps_of ty ts ≠ [] → ty ∈ ts.*1.
Proof.
  unfold caps_of. destruct (filter _ ts) as [|t l] eqn:Hf; [done|]. intros _.
  assert (t ∈ filter (λ t : string * F, t.1 = ty) ts) as Hin.
  { rewrite Hf. apply list_elem_of_here. }
  apply list_elem_of_filter in Hin as [<- Hin].
  apply list_elem_of_fmap. by exists t.
Qed.

(** C8: when the records of some cycle type number exactly one (and the
    capacity fields are well formed), [summarize_dataset] returns, the
    grouped table has a row for this type, and its standard deviation is
    NaN, the value of the sample convention [ddof = 1]. *)
Theorem single_record_group_std_nan fmt (d : dataset F) (st : explorer F)
    fs ty :
  load_all d = Ok st →
  (∀ c, cycle_in (charge_dir d) c ∨ cycle_in (partial_charge_dir d) c →
        capacity_ok c) →
  length (filter (λ r, cycle_type_of r = Some ty) (summary_data st)) = 1 →
  ∃ rep fs' row,
    summarize_dataset fmt st fs = Ok (rep, fs')
    ∧ (ty, row) ∈ grouped_stats rep
    ∧ agg_std row = fnan.
Proof.
  intros Hload Hok Hone.
  destruct (load_all_flat _ _ Hload Hok) as [ts Hts].
  assert (summary_data st ≠ []) as Hne.
  { intros Hnil. by rewrite Hnil in Hone. }
  destruct (summarize_dataset_Ok fmt st ts Hne Hts)
    as (mn & mx & grouped & _ & _ & Hg & Hs).
  rewrite (type_count _ _ _ Hts) in Hone.
  assert (ty ∈ merge_sort String.le (remove_dups ts.*1)) as Hty.
  { rewrite (merge_sort_Permutation String.le). apply elem_of_remove_dups.
    apply caps_of_elem. intros Hnil. by rewrite Hnil in Hone. }
  apply list_elem_of_lookup in Hty as [i Hi].
  destruct (Forall2_lookup_l _ _ _ _ _ Hg Hi) as ([g row] & Hgi & Hgty & Hagg).
  simpl in Hgty, Hagg. subst g.
  eexists _, _, row. split; [exact (Hs fs)|]. simpl.
  split; [by eapply list_elem_of_lookup_2|].
  rewrite Hagg. by apply pd_std_single.
Qed.

End SingleRecord.

(** ** The per-cycle CSV *)

Section SummaryCsv.
Context {F : Type} `{Arith F}.
Implicit Types (r : pydict F) (data : list (pydict F)) (ts : list (string * F))
  (gs : list (string * battery_entry F)).







Lemma summary_paths_differ (out : string) :
  path_join out "battery_cycle_type_summary.csv"
  ≠ path_join out "battery_cycle_summary.csv".
Proof.
  unfold path_join. intros Heq. apply (inj (String.app out)) in Heq.
  discriminate.
Qed.

Lemma string_app_empty_r (s : string) : s +:+ "" = s.
Proof. induction s as [|a s IH]; [done|]. by rewrite <-IH at 2. Qed.



End SummaryCsv.

(** ** Two runs of the pipeline *)

Section Idempotence.
Context {F : Type} `{Arith F}.

(** The report of [summarize_dataset] does not depend on the files
    already present; the two CSV files are overwritten. *)
Lemma summarize_dataset_files fmt (d : dataset F) (st : explorer F) fs rep fs' :
  load_all d = Ok st →
  summarize_dataset fmt st fs = Ok (rep, fs') →
  ∀ fs2, summarize_dataset fmt st fs2 =
    Ok (rep,
        <[path_join (output_dir st) "battery_cycle_type_summary.csv" :=
            grouped_to_csv fmt (grouped_stats rep)]>
          (<[path_join (output_dir st) "battery_cycle_summary.csv" :=
              to_csv fmt (summary_df rep)]> fs2)).
Proof.
  intros Hload Hs fs2.
  destruct (summarize_dataset_inv _ _ _ _ (summary_data_records _ _ Hload) Hs)
    as (Hne & ts & Hts).
  destruct (summarize_dataset_Ok fmt st ts Hne Hts)
    as (mn & mx & grouped & Hmn & Hmx & Hg & Hs').
  rewrite Hs' in Hs. injection Hs as <- <-. by rewrite Hs'.
Qed.

Lemma main_Ok fmt (w : world F) rep w' :
  main fmt w = Ok (rep, w') ↔
  ∃ st fs', load_all (data_root w) = Ok st
            ∧ summarize_dataset fmt st (written w) = Ok (rep, fs')
            ∧ w' = {| data_root := data_root w; written := fs' |}.
Proof.
  rewrite load_all_main. split.
  - intros Hm. bind_inv Hm st Hst. bind_inv Hm rf Hrf.
    injection Hm as <- <-. exists st, rf.2. by destruct rf.
  - intros (st & fs' & -> & Hs & ->). simpl. by rewrite Hs.
Qed.

Lemma insert_twice_idem (m : gmap string string) i j x y :
  i ≠ j →
  <[i := x]> (<[j := y]> (<[i := x]> (<[j := y]> m))) = <[i := x]> (<[j := y]> m).
Proof.
  intros Hne. apply map_eq. intros k. rewrite !lookup_insert.
  by repeat case_decide.
Qed.

(** C9: two runs of the pipeline on the same dataset return the same report
    and leave the same content in both CSV files, whatever files the output
    directory held before; and a second run after a first one changes
    nothing at all. *)
Theorem pipeline_idempotent fmt (w1 w2 : world F) rep w1' :
  data_root w1 = data_root w2 →
  main fmt w1 = Ok (rep, w1') →
  (∃ w2', main fmt w2 = Ok (rep, w2')
          ∧ ∀ name, name = "battery_cycle_summary.csv"
                    ∨ name = "battery_cycle_type_summary.csv" →
              written w2' !! path_join "output" name
              = written w1' !! path_join "output" name)
  ∧ main fmt w1' = Ok (rep, w1').
Proof.
  intros Hroot Hm. apply main_Ok in Hm as (st & fs' & Hload & Hs & ->).
  assert (output_dir st = "output") as Hout.
  { apply load_all_Ok in Hload as (gc & gp & _ & _ & ->).
    by rewrite store_all_output_dir. }
  pose proof (summarize_dataset_files _ _ _ _ _ _ Hload Hs) as Hany.
  pose proof Hs as Hs1. rewrite Hany in Hs1. injection Hs1 as Hfs'.
  rewrite Hout in Hany, Hfs'. split.
  - eexists. split.
    + apply main_Ok. exists st. eexists. rewrite <-Hroot.
      split; [done|]. split; [apply Hany|done].
    + intros name [-> | ->]; simpl; rewrite <-Hfs'.
      * by rewrite !(lookup_insert_ne _ _ _ _ (summary_paths_differ _)),
          !lookup_insert_eq.
      * by rewrite !lookup_insert_eq.
  - apply main_Ok. exists st, fs'. simpl. split; [done|]. split; [|done].
    rewrite Hany. do 2 f_equal. rewrite <-Hfs'.
    apply insert_twice_idem, summary_paths_differ.
Qed.

End Idempotence.

(** ** The synthetic input, in binary64 *)

Section SyntheticInput.
Import PrimFloat.
Local Open Scope float_scope.

(** C5: on the synthetic input (charge capacities 10, 20, 30 and
    partial-charge capacities 5, 5, 5) the grouped table is: charge with
    mean 20, min 10, max 30, std 10; partial_charge with mean 5, min 5,
    max 5, std 0. *)
Theorem grouped_stats_synthetic (fmt : float → string) :
  ∃ rep w',
    main fmt Examples.synthetic_world = Ok (rep, w')
    ∧ grouped_stats rep =
        [ ("charge",
           {| agg_mean := 20; agg_min := 10; agg_max := 30; agg_std := 10 |});
          ("partial_charge",
           {| agg_mean := 5; agg_min := 5; agg_max := 5; agg_std := 0 |}) ].
Proof. eexists _, _. split; [vm_compute; reflexivity|reflexivity]. Qed.

(** The global figures of the same run. *)
Example global_stats_synthetic (fmt : float → string) :
  ∃ rep w',
    main fmt Examples.synthetic_world = Ok (rep, w')
    ∧ total_batteries rep = 2%nat ∧ total_cycles rep = 6%nat
    ∧ capacity_mean rep = 12.5 ∧ capacity_min rep = 5
    ∧ capacity_max rep = 30.
Proof. eexists _, _. split; [vm_compute; reflexivity|by repeat split]. Qed.

(** C4, as stated, fails in binary64: for a current constant at the double
    nearest to 0.1 over three samples, the sum rounds up and the mean
    0.10000000000000002 exceeds the maximum 0.1. *)
Lemma current_max_below_mean :
  ∃ r cap m M,
    extract_cycle "charge" 0 0 Examples.constant_current = Ok (r, cap)
    ∧ dict_get r "current_mean" = Some (VFloat m)
    ∧ dict_get r "current_max" = Some (VFloat M)
    ∧ (M <? m) = true ∧ (m <=? M) = false.
Proof.
  eexists _, _, _, _. split; [vm_compute; reflexivity|].
  split; [reflexivity|]. split; [reflexivity|]. split; vm_compute; reflexivity.
Qed.

(** C1, as stated, fails on a table with a missing capacity.  For charge
    capacities 10, NaN, 30 the sample formula over the capacities of the
    group is NaN, while the grouped table, whose kernels leave missing
    values out, has the sample standard deviation of 10 and 30, the square
    root of 200. *)
Lemma grouped_std_skips_nan :
  ∃ rep w' st row,
    main Examples.no_fmt MoreExamples.nan_capacity_world = Ok (rep, w')
    ∧ load_all MoreExamples.nan_capacity = Ok st
    ∧ group_capacities (summary_data st) "charge" = [10; nan; 30]
    ∧ grouped_stats rep = [("charge", row)]
    ∧ agg_std row = sqrt 200
    ∧ fisnan (agg_std row) = false
    ∧ fisnan (sample_std (group_capacities (summary_data st) "charge")) = true.
Proof.
  eexists _, _, _, _. split; [vm_compute; reflexivity|].
  split; [vm_compute; reflexivity|]. split; [reflexivity|].
  split; [reflexivity|]. split; [vm_compute; reflexivity|].
  split; vm_compute; reflexivity.
Qed.

(** In binary64 the two also differ by rounding: for three capacities equal
    to the double nearest to 0.1 the one-pass kernel of the grouped table
    gives 0, the two-pass formula summed term by term does not. *)
Example grouped_std_rounding :
  pd_std 1 [0x1.999999999999ap-4; 0x1.999999999999ap-4; 0x1.999999999999ap-4]
  = 0
  ∧ (0 <? sample_std [0x1.999999999999ap-4; 0x1.999999999999ap-4;
                      0x1.999999999999ap-4]) = true.
Proof. split; vm_compute; reflexivity. Qed.

End SyntheticInput.

(** ** Mean and maximum in exact arithmetic *)

Section ExactArithmetic.
Import Exact.

Lemma xsum_reals (a : R) (l : list R) :
  foldl fadd (XR a) (XR <$> l) = XR (foldl Rplus a l).
Proof. revert a. induction l as [|x l IH]; intros a; [done|]. apply IH. Qed.

Lemma foldl_Rplus_shift (a : R) (l : list R) :
  foldl Rplus a l = (a + foldl Rplus 0 l)%R.
Proof.
  revert a. induction l as [|x l IH]; intros a; simpl; [lra|].
  rewrite (IH (a + x)%R), (IH (0 + x)%R). lra.
Qed.

Lemma unrolled8_reals (n : nat) (l : list R) (r0 r1 r2 r3 r4 r5 r6 r7 : R) :
  length l ≤ n →
  unrolled8 (XR r0) (XR r1) (XR r2) (XR r3) (XR r4) (XR r5) (XR r6) (XR r7)
    (XR <$> l)
  = XR (r0 + r1 + r2 + r3 + r4 + r5 + r6 + r7 + foldl Rplus 0 l)%R.
Proof.
  revert l r0 r1 r2 r3 r4 r5 r6 r7.
  induction n as [|n IH]; intros l r0 r1 r2 r3 r4 r5 r6 r7 Hlen.
  { destruct l; [|simpl in Hlen; lia]. simpl. f_equal. lra. }
  do 8 (destruct l as [|? l];
        [csimpl; rewrite ?xsum_reals; f_equal;
         rewrite ?(foldl_Rplus_shift (_ + _)); simpl; lra|]).
  csimpl. change (lift2 Rplus (XR ?a) (XR ?b)) with (XR (a + b)%R).
  rewrite IH by (simpl in Hlen; lia). f_equal.
  cbn [foldl]. rewrite (foldl_Rplus_shift (_ + _)). lra.
Qed.

Lemma block_sum_reals (l : list R) :
  block_sum (XR <$> l) = XR (foldl Rplus 0%R l).
Proof.
  do 8 (destruct l as [|? l]; [apply (xsum_reals 0%R)|]).
  csimpl. rewrite (unrolled8_reals (length l)) by done. f_equal.
  cbn [foldl]. rewrite (foldl_Rplus_shift (_ + _)). lra.
Qed.

Lemma Rsum_take_drop (n : nat) (l : list R) :
  (foldl Rplus 0 (take n l) + foldl Rplus 0 (drop n l))%R = foldl Rplus 0%R l.
Proof.
  rewrite <-(take_drop n l) at 3. rewrite foldl_app.
  by rewrite (foldl_Rplus_shift (foldl _ _ _)).
Qed.

Lemma pairwise_sum_go_reals (depth : nat) (l : list R) :
  pairwise_sum_go depth (XR <$> l) = XR (foldl Rplus 0%R l).
Proof.
  revert l. induction depth as [|depth IH]; intros l; cbn [pairwise_sum_go].
  - destruct (length (XR <$> l) <=? 128)%nat; apply block_sum_reals.
  - destruct (length (XR <$> l) <=? 128)%nat; [apply block_sum_reals|].
    rewrite <-fmap_take, <-fmap_drop, !IH.
    change (fadd (XR ?a) (XR ?b)) with (XR (a + b)%R). f_equal.
    apply Rsum_take_drop.
Qed.

(** In exact arithmetic numpy's sum is the sum. *)
Lemma np_sum_reals (l : list R) : np_sum (XR <$> l) = XR (foldl Rplus 0%R l).
Proof.
  unfold np_sum, pairwise_sum. rewrite pairwise_sum_go_reals.
  change (XR (0 + foldl Rplus 0 l)%R = XR (foldl Rplus 0%R l)). f_equal. lra.
Qed.

Lemma maximum_reals (a b : R) : maximum (XR a) (XR b) = XR (Rmax a b).
Proof.
  unfold maximum, fisnan, Rmax. simpl.
  destruct (Req_EM_T a a) as [_|Hne]; [|done]. simpl.
  rewrite orb_false_r.
  destruct (Rle_dec b a) as [Hba|Hba], (Rle_dec a b) as [Hab|Hab];
    try done; [f_equal; lra | lra].
Qed.

Lemma xmax_reals (a : R) (l : list R) :
  foldl maximum (XR a) (XR <$> l) = XR (foldl Rmax a l).
Proof.
  revert a. induction l as [|x l IH]; intros a; [done|].
  csimpl. rewrite maximum_reals. apply IH.
Qed.

Lemma foldl_Rmax_ge (a : R) (l : list R) :
  (a <= foldl Rmax a l)%R ∧ Forall (λ y, (y <= foldl Rmax a l)%R) l.
Proof.
  revert a. induction l as [|x l IH]; intros a; simpl.
  - split; [lra|constructor].
  - destruct (IH (Rmax a x)) as [Hm Hl]. split.
    + pose proof (Rmax_l a x). lra.
    + constructor; [|done]. pose proof (Rmax_r a x). lra.
Qed.

Lemma foldl_Rplus_le (M a : R) (l : list R) :
  Forall (λ y, (y <= M)%R) l →
  (foldl Rplus a l <= a + INR (length l) * M)%R.
Proof.
  intros Hl. revert a. induction Hl as [|x l Hx _ IH]; intros a.
  - simpl. lra.
  - cbn [foldl length]. rewrite S_INR. specialize (IH (a + x)%R). lra.
Qed.

(** *** The kernels on real numbers *)

Lemma fadd_reals (a b : R) : fadd (XR a) (XR b) = XR (a + b)%R.
Proof. reflexivity. Qed.

Lemma fsub_reals (a b : R) : fsub (XR a) (XR b) = XR (a - b)%R.
Proof. reflexivity. Qed.

Lemma fmul_reals (a b : R) : fmul (XR a) (XR b) = XR (a * b)%R.
Proof. reflexivity. Qed.

Lemma fdiv_reals (a : R) (n : nat) :
  n ≠ 0 → fdiv (XR a) (of_nat n) = XR (a / INR n)%R.
Proof.
  intros Hn. change (xdiv (XR a) (XR (INR n)) = XR (a / INR n)%R).
  unfold xdiv. destruct (Req_EM_T (INR n) 0) as [Hz|_]; [|done].
  by apply not_0_INR in Hz.
Qed.

Lemma fisnan_reals (a : R) : fisnan (XR a) = false.
Proof. unfold fisnan. simpl. by destruct (Req_EM_T a a). Qed.

Lemma total_reals (l : list R) : total (XR <$> l) = XR (foldl Rplus 0%R l).
Proof. apply (xsum_reals 0%R). Qed.

Lemma np_mean_reals (l : list R) :
  l ≠ [] → np_mean (XR <$> l) = XR (foldl Rplus 0 l / INR (length l))%R.
Proof.
  intros Hl. unfold np_mean. rewrite np_sum_reals, length_fmap.
  apply fdiv_reals. by destruct l.
Qed.

Lemma mean_of_reals (l : list R) :
  l ≠ [] → mean_of (XR <$> l) = XR (foldl Rplus 0 l / INR (length l))%R.
Proof.
  intros Hl. unfold mean_of. rewrite total_reals, length_fmap.
  apply fdiv_reals. by destruct l.
Qed.

Lemma sq_dev_reals (m : R) (l : list R) :
  (λ x, fmul (fsub x (XR m)) (fsub x (XR m))) <$> (XR <$> l)
  = XR <$> ((λ x, (x - m) * (x - m))%R <$> l).
Proof. rewrite <-!list_fmap_compose. by apply list_fmap_ext. Qed.

(** numpy's two-pass standard deviation is the population formula. *)
Lemma np_std_reals (l : list R) :
  l ≠ [] → np_std (XR <$> l) = population_std (XR <$> l).
Proof.
  intros Hl. unfold np_std, np_var, population_std, sq_dev, sum_sq_dev.
  rewrite Nat.sub_0_r, np_mean_reals, mean_of_reals by done.
  by rewrite sq_dev_reals, np_sum_reals, total_reals.
Qed.

(** The compensated sum: in exact arithmetic the compensation is zero. *)
Lemma kahan_reals (l : list R) (k : nat) (s c : R) :
  c = 0%R →
  ∃ s' c', foldl kahan_step (k, XR s, XR c) (XR <$> l)
           = (k + length l, XR s', XR c')
           ∧ s' = (s + foldl Rplus 0 l)%R ∧ c' = 0%R.
Proof.
  revert k s c. induction l as [|x l IH]; intros k s c Hc.
  { exists s, c. simpl. rewrite Nat.add_0_r. split; [done|]. split; [lra|done]. }
  rewrite fmap_cons. cbn [foldl length]. unfold kahan_step at 2.
  rewrite fisnan_reals, !fsub_reals, !fadd_reals, !fsub_reals, fisnan_reals.
  destruct (IH (S k) (s + (x - c))%R (s + (x - c) - s - (x - c))%R)
    as (s' & c' & Hfold & Hs & Hc'); [lra|].
  exists s', c'. rewrite Hfold. split; [f_equal; f_equal; lia|].
  split; [|done]. rewrite Hs, (foldl_Rplus_shift (0 + x)). lra.
Qed.

Lemma group_mean_reals (l : list R) :
  l ≠ [] → group_mean (XR <$> l) = XR (foldl Rplus 0 l / INR (length l))%R.
Proof.
  intros Hl. unfold group_mean.
  destruct (kahan_reals l 0 0%R 0%R eq_refl) as (s' & c' & Hfold & Hs & _).
  change fzero with (XR 0). rewrite Hfold.
  destruct l as [|x l]; [done|]. cbn [length Nat.add].
  rewrite fdiv_reals by done. f_equal. rewrite Hs. f_equal. lra.
Qed.

(** The running minimum and maximum. *)
Lemma min_step_reals (m v : R) :
  min_step (Some (XR m)) (XR v) = Some (XR (Rmin m v)).
Proof.
  unfold min_step, fltb. rewrite fisnan_reals. simpl. unfold Rmin.
  destruct (Rle_dec v m), (Rle_dec m v); simpl; do 2 f_equal; lra.
Qed.

Lemma max_step_reals (m v : R) :
  max_step (Some (XR m)) (XR v) = Some (XR (Rmax m v)).
Proof.
  unfold max_step, fltb. rewrite fisnan_reals. simpl. unfold Rmax.
  destruct (Rle_dec m v), (Rle_dec v m); simpl; do 2 f_equal; lra.
Qed.

Lemma group_min_reals (x : R) (l : list R) :
  group_min (XR <$> x :: l) = XR (foldl Rmin x l).
Proof.
  unfold group_min. rewrite fmap_cons. cbn [foldl]. unfold min_step at 2.
  rewrite fisnan_reals.
  revert x. induction l as [|y l IH]; intros x; [done|].
  rewrite fmap_cons. cbn [foldl]. rewrite min_step_reals. apply IH.
Qed.

Lemma group_max_reals (x : R) (l : list R) :
  group_max (XR <$> x :: l) = XR (foldl Rmax x l).
Proof.
  unfold group_max. rewrite fmap_cons. cbn [foldl]. unfold max_step at 2.
  rewrite fisnan_reals.
  revert x. induction l as [|y l IH]; intros x; [done|].
  rewrite fmap_cons. cbn [foldl]. rewrite max_step_reals. apply IH.
Qed.

(** Welford's update: after [k] values with sum [s] and sum of squares
    [q], the running mean is [s / k] and the running sum of squared
    deviations is [q - s * s / k]. *)
Lemma welford_reals (l : list R) (k : nat) (s q m o : R) :
  k ≠ 0 → m = (s / INR k)%R → o = (q - s * s / INR k)%R →
  ∃ m' o', foldl welford_step (k, XR m, XR o) (XR <$> l)
           = (k + length l, XR m', XR o')
           ∧ o' = (q + foldl Rplus 0 ((λ x, x * x)%R <$> l)
                   - (s + foldl Rplus 0 l) * (s + foldl Rplus 0 l)
                     / INR (k + length l))%R.
Proof.
  revert k s q m o. induction l as [|x l IH]; intros k s q m o Hk Hm Ho.
  { exists m, o. simpl. rewrite Nat.add_0_r. split; [done|]. rewrite Ho. lra. }
  rewrite fmap_cons. cbn [foldl length]. unfold welford_step at 2.
  rewrite fisnan_reals, !fsub_reals, (fdiv_reals _ (S k)) by done.
  rewrite !fadd_reals, !fsub_reals, fmul_reals, fadd_reals.
  assert (INR k ≠ 0%R) as Hk' by (by apply not_0_INR).
  assert (INR (S k) ≠ 0%R) as HSk by (by apply not_0_INR).
  destruct (IH (S k) (s + x)%R (q + x * x)%R
              (m + (x - m) / INR (S k))%R
              (o + (x - (m + (x - m) / INR (S k))) * (x - m))%R)
    as (m' & o' & Hfold & Ho'); [done| | |].
  - rewrite Hm. rewrite S_INR in *. by field.
  - rewrite Hm, Ho. rewrite S_INR in *. by field.
  - exists m', o'. rewrite Hfold. split; [f_equal; f_equal; lia|].
    rewrite Ho', fmap_cons. cbn [foldl].
    rewrite !(foldl_Rplus_shift (0 + _)).
    replace (k + S (length l)) with (S k + length l) by lia.
    unfold Rdiv. ring.
Qed.

(** The sum of squared deviations from [m], by sums and sums of squares. *)
Lemma Rsum_sq_dev (m : R) (l : list R) :
  foldl Rplus 0%R ((λ x, (x - m) * (x - m))%R <$> l)
  = (foldl Rplus 0 ((λ x, x * x)%R <$> l) - 2 * m * foldl Rplus 0 l
     + INR (length l) * m * m)%R.
Proof.
  induction l as [|x l IH]; [simpl; lra|].
  change (length (x :: l)) with (S (length l)). rewrite S_INR. csimpl.
  rewrite !(foldl_Rplus_shift (0 + _)), IH. lra.
Qed.

Lemma sum_sq_dev_formula (l : list R) :
  l ≠ [] →
  sum_sq_dev (XR <$> l)
  = XR (foldl Rplus 0 ((λ x, x * x) <$> l)
        - foldl Rplus 0 l * foldl Rplus 0 l / INR (length l))%R.
Proof.
  intros Hl. unfold sum_sq_dev. rewrite mean_of_reals by done.
  rewrite sq_dev_reals, total_reals, Rsum_sq_dev. f_equal.
  assert (INR (length l) ≠ 0%R) as Hn by (apply not_0_INR; by destruct l).
  by field.
Qed.

(** pandas' one-pass standard deviation is the sample formula. *)
Lemma pd_std_reals (l : list R) :
  2 ≤ length l → pd_std 1 (XR <$> l) = sample_std (XR <$> l).
Proof.
  intros Hlen. unfold sample_std.
  rewrite sum_sq_dev_formula, length_fmap by (intros ->; simpl in Hlen; lia).
  destruct l as [|x l]; [simpl in Hlen; lia|].
  unfold pd_std. rewrite fmap_cons. cbn [foldl]. unfold welford_step at 2.
  rewrite fisnan_reals. change fzero with (XR 0).
  rewrite !fsub_reals, (fdiv_reals _ 1) by done.
  rewrite !fadd_reals, !fsub_reals, fmul_reals, fadd_reals.
  destruct (welford_reals l 1 x (x * x)%R (0 + (x - 0) / INR 1)%R
              (0 + (x - (0 + (x - 0) / INR 1)) * (x - 0))%R)
    as (m' & o' & Hfold & Ho'); [done| | |].
  - simpl. field.
  - simpl. field.
  - rewrite Hfold.
    destruct (Nat.leb_spec (1 + length l) 1) as [Hle|_];
      [simpl in Hlen; lia|].
    rewrite Ho'. do 3 f_equal.
    rewrite fmap_cons. cbn [foldl]. rewrite !(foldl_Rplus_shift (0 + _)).
    change (1 + length l) with (length (x :: l)). unfold Rdiv. ring.
Qed.

(** The mean of a non-empty sequence of reals is defined and at most its
    maximum. *)
Lemma mean_le_max (l : list R) :
  l ≠ [] →
  ∃ m M, np_mean (XR <$> l) = XR m ∧ np_max (XR <$> l) = Ok (XR M)
         ∧ (m <= M)%R.
Proof.
  destruct l as [|x l]; [done|]. intros _.
  exists (foldl Rplus 0 (x :: l) / INR (length (x :: l)))%R,
         (foldl Rmax x l).
  assert (INR (length (x :: l)) ≠ 0%R) as Hn by (by apply not_0_INR).
  split; [|split].
  - unfold np_mean. rewrite length_fmap, np_sum_reals.
    generalize dependent (length (x :: l)). intros n Hn.
    generalize (foldl Rplus 0%R (x :: l)). intros s.
    change (xdiv (XR s) (XR (INR n)) = XR (s / INR n)).
    unfold xdiv. by destruct (Req_EM_T (INR n) 0).
  - csimpl. by rewrite xmax_reals.
  - destruct (foldl_Rmax_ge x l) as [Hx Hl].
    assert (Forall (λ y, (y <= foldl Rmax x l)%R) (x :: l)) as Hall
      by (by constructor).
    pose proof (foldl_Rplus_le (foldl Rmax x l) 0 (x :: l) Hall) as Hsum.
    assert (0 < INR (length (x :: l)))%R as Hpos.
    { apply lt_0_INR. simpl. lia. }
    apply (Rmult_le_reg_r (INR (length (x :: l)))); [done|].
    unfold Rdiv. rewrite Rmult_assoc, Rinv_l by done. lra.
Qed.

(** C4 (amended): in exact real arithmetic, a cycle whose four signals each
    have at least one sample yields a record in which every maximum is at
    least the corresponding mean. *)
Theorem max_ge_mean_exact ty b j (t cu v te : list R) capa cap :
  t ≠ [] → cu ≠ [] → v ≠ [] → te ≠ [] →
  ∃ tm tM cm cM vm vM em eM : R,
    cycle_features ty b j
      {| relative_time_min := XR <$> t; current_A := XR <$> cu;
         voltage_V := XR <$> v; temperature_C := XR <$> te;
         capacity := capa |} cap
    = Ok (mk_record (b + 1) ty j (XR tm) (XR tM) (XR cm) (XR cM)
            (XR vm) (XR vM) (XR em) (XR eM) cap)
    ∧ (tm <= tM)%R ∧ (cm <= cM)%R ∧ (vm <= vM)%R ∧ (em <= eM)%R.
Proof.
  intros Ht Hcu Hv Hte.
  destruct (mean_le_max t Ht) as (tm & tM & Htm & HtM & Hlt).
  destruct (mean_le_max cu Hcu) as (cm & cM & Hcm & HcM & Hlc).
  destruct (mean_le_max v Hv) as (vm & vM & Hvm & HvM & Hlv).
  destruct (mean_le_max te Hte) as (em & eM & Hem & HeM & Hle).
  exists tm, tM, cm, cM, vm, vM, em, eM. split; [|done].
  unfold cycle_features. cbn [relative_time_min current_A voltage_V temperature_C].
  rewrite HtM, HcM, HvM, HeM. cbn [mbind result_bind].
  by rewrite Htm, Hcm, Hvm, Hem.
Qed.

(** In exact arithmetic the sample formula itself is undefined on a single
    observation: the divisor [N - 1] is zero. *)
Lemma sample_std_single_undefined (x : xreal) : sample_std [x] = fnan.
Proof.
  unfold sample_std. simpl length. change (of_nat (1 - 1)) with (XR 0).
  destruct (sum_sq_dev [x]) as [|s]; [done|]. simpl.
  by destruct (Req_EM_T 0 0).
Qed.

Lemma max_ge_mean_exact_witness :
  ∃ tm tM cm cM vm vM em eM : R,
    cycle_features "charge" 0 0
      {| relative_time_min := XR <$> [0; 1]%R; current_A := XR <$> [1]%R;
         voltage_V := XR <$> [3; 4]%R; temperature_C := XR <$> [25]%R;
         capacity := Arr1 [XR 1] |} (VFloat (XR 1))
    = Ok (mk_record (0 + 1) "charge" 0 (XR tm) (XR tM) (XR cm) (XR cM)
            (XR vm) (XR vM) (XR em) (XR eM) (VFloat (XR 1)))
    ∧ (tm <= tM)%R ∧ (cm <= cM)%R ∧ (vm <= vM)%R ∧ (em <= eM)%R.
Proof.
  apply (max_ge_mean_exact "charge" 0 0 [0; 1]%R [1]%R [3; 4]%R [25]%R);
    discriminate.
Defined.

End ExactArithmetic.

(** ** Standard deviations *)

Section ExactStd.
Import Exact.

Lemma reals_list (xs : list xreal) :
  Forall (λ x, ∃ r, x = XR r) xs → ∃ l, xs = XR <$> l.
Proof.
  induction 1 as [|x xs [r ->] _ [l ->]]; [by exists []|]. by exists (r :: l).
Qed.

Lemma caps_of_reals ty (ts : list (string * xreal)) (l : list R) :
  ts.*2 = XR <$> l → ∃ l', caps_of ty ts = XR <$> l'.
Proof.
  intros Hts. apply reals_list. unfold caps_of.
  apply Forall_fmap, Forall_forall. intros t [_ Hin]%list_elem_of_filter.
  assert (t.2 ∈ XR <$> l) as Hr.
  { rewrite <-Hts. apply list_elem_of_fmap. by exists t. }
  apply list_elem_of_fmap in Hr as (r & Hr & _). by exists r.
Qed.


End ExactStd.

(** ** The theorems at concrete inputs *)

Ltac elem_cases :=
  repeat match goal with
  | Hin : _ ∈ _ :: _ |- _ => apply elem_of_cons in Hin as [->|Hin]
  | Hin : _ ∈ [] |- _ => by apply not_elem_of_nil in Hin
  end.


Lemma battery_data_keyed_by_position_witness :
  load_all Examples.two_files = Ok Examples.two_files_state
  ∧ size (battery_data Examples.two_files_state)
    = length (remove_dups (loaded_pairs Examples.two_files))
  ∧ length (summary_data Examples.two_files_state)
    = dir_cycle_count (charge_dir Examples.two_files)
      + dir_cycle_count (partial_charge_dir Examples.two_files).
Proof.
  assert (load_all Examples.two_files = Ok Examples.two_files_state)
    as Hload by exact eq_refl.
  split; [exact Hload|].
  destruct (battery_data_keyed_by_position Examples.two_files
              Examples.two_files_state Hload) as (Hsize & _ & _ & Hlen & _).
  split; [exact Hsize|exact Hlen].
Defined.



Lemma single_charge_capacity_ok (c : cycle PrimFloat.float) :
  cycle_in (charge_dir Examples.single_charge) c
  ∨ cycle_in (partial_charge_dir Examples.single_charge) c →
  capacity_ok c.
Proof.
  intros [(mat & cs & Hmat & Hcs & Hc)|(mat & cs & Hmat & Hcs & Hc)];
    simpl in Hmat; elem_cases; exact I.
Defined.

Lemma single_record_group_std_nan_witness :
  load_all Examples.single_charge = Ok Examples.single_charge_state
  ∧ length (filter (λ r, cycle_type_of r = Some "charge")
              (summary_data Examples.single_charge_state)) = 1
  ∧ ∃ rep fs' row,
      summarize_dataset Examples.no_fmt Examples.single_charge_state ∅
      = Ok (rep, fs')
      ∧ ("charge", row) ∈ grouped_stats rep
      ∧ agg_std row = fnan.
Proof.
  assert (load_all Examples.single_charge = Ok Examples.single_charge_state)
    as Hload by exact eq_refl.
  assert (length (filter (λ r, cycle_type_of r = Some "charge")
                    (summary_data Examples.single_charge_state)) = 1)
    as Hone by exact eq_refl.
  split; [exact Hload|]. split; [exact Hone|].
  exact (single_record_group_std_nan Examples.no_fmt Examples.single_charge
           Examples.single_charge_state ∅ "charge" Hload
           single_charge_capacity_ok Hone).
Defined.

Lemma pipeline_idempotent_witness :
  main Examples.no_fmt Examples.synthetic_world
  = Ok (Examples.synthetic_summary.1,
        {| data_root := Examples.synthetic;
           written := Examples.synthetic_summary.2 |})
  ∧ main Examples.no_fmt
      {| data_root := Examples.synthetic;
         written := Examples.synthetic_summary.2 |}
    = Ok (Examples.synthetic_summary.1,
          {| data_root := Examples.synthetic;
             written := Examples.synthetic_summary.2 |}).
Proof.
  assert (main Examples.no_fmt Examples.synthetic_world
          = Ok (Examples.synthetic_summary.1,
                {| data_root := Examples.synthetic;
                   written := Examples.synthetic_summary.2 |}))
    as Hmain by exact eq_refl.
  split; [exact Hmain|].
  apply (pipeline_idempotent Examples.no_fmt Examples.synthetic_world
           Examples.synthetic_world _ _ eq_refl Hmain).
Defined.

(** * Further properties of the loader and the reporter *)

(** ** When a load returns *)

Section LoadReturns.
Context {F : Type} `{Arith F}.
Implicit Types (c : cycle F) (files : list (matfile F)).

Lemma cycle_features_total ty b j c cap :
  ¬ has_empty_signal c → ∃ r, cycle_features ty b j c cap = Ok r.
Proof.
  destruct c as [t cu v te capa]. unfold has_empty_signal, cycle_features.
  simpl. intros Hne.
  destruct t; [by destruct Hne; left|].
  destruct cu; [by destruct Hne; right; left|].
  destruct v; [by destruct Hne; right; right; left|].
  destruct te; [by destruct Hne; right; right; right|].
  by eexists.
Qed.

Lemma index0_Ok_iff c : (∃ v, index0 (capacity c) = Ok v) ↔ capacity_indexable c.
Proof.
  unfold capacity_indexable.
  destruct (capacity c) as [[|x xs]|[|r rs]]; simpl; split; intros Hc;
    try done; try (by destruct Hc); by eexists.
Qed.

Lemma extract_cycle_Ok_iff ty b j c :
  (∃ rc, extract_cycle ty b j c = Ok rc)
  ↔ ¬ has_empty_signal c ∧ capacity_indexable c.
Proof.
  split.
  - intros [rc Hrc]. split.
    + intros Hempty.
      destruct (extract_cycle_empty_signal ty b j c Hempty); congruence.
    + apply index0_Ok_iff. unfold extract_cycle in Hrc.
      bind_inv Hrc cap Hcap. by exists cap.
  - intros [Hne [cap Hcap]%index0_Ok_iff]. unfold extract_cycle.
    rewrite Hcap. simpl.
    destruct (cycle_features_total ty b j c cap Hne) as [r ->]. by eexists.
Qed.

Lemma dir_groups_Ok_iff ty files :
  (∃ gs, dir_groups ty files = Ok gs)
  ↔ ∀ c, cycle_in files c → ¬ has_empty_signal c ∧ capacity_indexable c.
Proof.
  split.
  - intros [gs Hd] c (mat & cs & Hmat & Hcs & Hc).
    apply dir_groups_Ok in Hd as (gss & Hgss & _).
    apply list_elem_of_lookup in Hmat as [i Hi].
    destruct (Forall2_lookup_l _ _ _ _ _ Hgss Hi) as (g & _ & Hg).
    apply list_elem_of_lookup in Hcs as [b Hb].
    destruct (imapM_lookup_inv _ _ _ _ _ _ Hg Hb) as ([k e] & _ & Hbg).
    apply battery_group_Ok in Hbg as (_ & r & Hr & _).
    apply list_elem_of_lookup in Hc as [j Hj].
    destruct (imapM_lookup_inv _ _ _ _ _ _ Hr Hj) as (y & _ & Hy).
    apply (extract_cycle_Ok_iff ty (0 + b) (0 + j)). by exists y.
  - intros Hall. unfold dir_groups, mapM.
    destruct (imapM_total (λ _, file_groups ty) 0 files) as [gss ->];
      [|by eexists].
    intros i mat Hmat. unfold file_groups.
    apply imapM_total. intros b cs Hcs. rewrite battery_group_eq.
    destruct (imapM_total (extract_cycle ty (0 + b)) 0 cs) as [r ->];
      [|by eexists].
    intros j c Hc. apply extract_cycle_Ok_iff, Hall.
    exists mat, cs. repeat split; by eapply list_elem_of_lookup_2.
Qed.

Lemma load_all_Ok_iff (d : dataset F) :
  (∃ st, load_all d = Ok st)
  ↔ ∀ c, cycle_in (charge_dir d) c ∨ cycle_in (partial_charge_dir d) c →
         ¬ has_empty_signal c ∧ capacity_indexable c.
Proof.
  split.
  - intros [st (gc & gp & Hgc & Hgp & _)%load_all_Ok] c [Hc|Hc].
    + apply (proj1 (dir_groups_Ok_iff "charge" (charge_dir d))); [|done].
      by exists gc.
    + apply (proj1 (dir_groups_Ok_iff "partial_charge"
                      (partial_charge_dir d))); [|done].
      by exists gp.
  - intros Hall.
    destruct (proj2 (dir_groups_Ok_iff "charge" (charge_dir d))) as [gc Hgc].
    { intros c Hc. apply Hall. by left. }
    destruct (proj2 (dir_groups_Ok_iff "partial_charge" (partial_charge_dir d)))
      as [gp Hgp].
    { intros c Hc. apply Hall. by right. }
    eexists. apply load_all_Ok. by exists gc, gp.
Qed.

(** X1: the two loads return exactly when every cycle of both
    subdirectories has four non-empty signals and a capacity array with an
    element to index; nothing else (no sample value, no number of files,
    batteries or cycles) makes a load fail. *)
Theorem load_all_returns_iff (d : dataset F) :
  (∃ st, load_all d = Ok st)
  ↔ ∀ c, in_dataset d c → ¬ has_empty_signal c ∧ capacity_indexable c.
Proof. apply load_all_Ok_iff. Qed.

End LoadReturns.

(** ** How the pipeline can fail *)

Lemma imapM_Raise {A B} (f : nat → A → result B) i l e :
  imapM f i l = Raise e → ∃ j x, l !! j = Some x ∧ f (i + j) x = Raise e.
Proof.
  revert i. induction l as [|x l IH]; intros i Hl; [done|].
  rewrite imapM_cons in Hl.
  destruct (f i x) as [y|e'] eqn:Hx; simpl in Hl.
  - destruct (imapM f (S i) l) as [ys|e'] eqn:Hys; simpl in Hl; [done|].
    injection Hl as ->. destruct (IH _ Hys) as (j & x' & Hj & Hf).
    exists (S j), x'. split; [done|]. by rewrite <-Nat.add_succ_comm.
  - injection Hl as ->. exists 0, x. by rewrite Nat.add_0_r.
Qed.

Section Failures.
Context {F : Type} `{Arith F}.
Implicit Types (c : cycle F) (files : list (matfile F)) (r : pydict F)
  (data : list (pydict F)).

Lemma capacity_ok_indexable c : capacity_ok c → capacity_indexable c.
Proof.
  unfold capacity_ok, capacity_indexable.
  by destruct (capacity c) as [[|x xs]|[|[|x row] rows]].
Qed.

(** The capacity is read first: an empty capacity array raises
    [IndexError] whatever the signals are; otherwise an empty signal raises
    [ValueError]. *)
Lemma extract_cycle_Raise ty b j c e :
  extract_cycle ty b j c = Raise e →
  (e = IndexError ∧ ¬ capacity_indexable c)
  ∨ (e = ValueError ∧ capacity_indexable c ∧ has_empty_signal c).
Proof.
  unfold extract_cycle. intros Hx.
  destruct (index0 (capacity c)) as [cap|e'] eqn:Hcap; simpl in Hx.
  - right. assert (capacity_indexable c) as Hidx.
    { apply index0_Ok_iff. by exists cap. }
    destruct (decide (relative_time_min c = [])) as [?|Ht];
      [|destruct (decide (current_A c = [])) as [?|Hcu];
        [|destruct (decide (voltage_V c = [])) as [?|Hv];
          [|destruct (decide (temperature_C c = [])) as [?|Hte]]]].
    1-4: assert (has_empty_signal c) as Hempty
      by (unfold has_empty_signal; tauto);
      rewrite (cycle_features_empty_signal _ _ _ _ _ Hempty) in Hx;
      simpl in Hx; by injection Hx as <-.
    destruct (cycle_features_total ty b j c cap) as [r Hr].
    { unfold has_empty_signal. tauto. }
    rewrite Hr in Hx. done.
  - left. injection Hx as ->. split.
    + by destruct (capacity c) as [[|x xs]|[|r rs]]; simplify_eq/=.
    + intros [v Hv]%index0_Ok_iff. congruence.
Qed.

Lemma dir_groups_Raise ty files e :
  dir_groups ty files = Raise e →
  ∃ c b j, cycle_in files c ∧ extract_cycle ty b j c = Raise e.
Proof.
  unfold dir_groups, mapM. intros Hd.
  destruct (imapM (λ _, file_groups ty) 0 files) as [gss|e'] eqn:Hgss;
    [done|]. simpl in Hd. injection Hd as ->.
  apply imapM_Raise in Hgss as (i & mat & Hmat & Hfg).
  apply imapM_Raise in Hfg as (b & cs & Hcs & Hbg).
  rewrite battery_group_eq in Hbg.
  destruct (imapM (extract_cycle ty (0 + b)) 0 cs) as [rs|e'] eqn:Hrs;
    [done|]. simpl in Hbg. injection Hbg as ->.
  apply imapM_Raise in Hrs as (j & c & Hc & Hx).
  exists c, (0 + b), (0 + j). split; [|done].
  exists mat, cs. repeat split; by eapply list_elem_of_lookup_2.
Qed.

Lemma load_all_Raise (d : dataset F) e :
  load_all d = Raise e →
  ∃ c ty b j, in_dataset d c ∧ extract_cycle ty b j c = Raise e.
Proof.
  unfold load_all, load_charge_data, load_partial_charge_data.
  rewrite file_loop_spec. intros Hl.
  destruct (dir_groups "charge" (charge_dir d)) as [gc|e'] eqn:Hgc;
    simpl in Hl.
  - rewrite file_loop_spec in Hl.
    destruct (dir_groups "partial_charge" (partial_charge_dir d))
      as [gp|e'] eqn:Hgp; simpl in Hl; [done|]. injection Hl as ->.
    destruct (dir_groups_Raise _ _ _ Hgp) as (c & b & j & Hc & Hx).
    exists c, "partial_charge", b, j. split; [by right|done].
  - injection Hl as ->.
    destruct (dir_groups_Raise _ _ _ Hgc) as (c & b & j & Hc & Hx).
    exists c, "charge", b, j. split; [by left|done].
Qed.

Lemma sum_list_with_pos {A} (f : A → nat) (l : list A) :
  0 < sum_list_with f l ↔ ∃ x, x ∈ l ∧ 0 < f x.
Proof.
  induction l as [|x l IH]; simpl.
  - split; [lia|]. by intros (x & Hx%not_elem_of_nil & _).
  - split.
    + intros Hpos. destruct (decide (0 < f x)) as [Hx|Hx].
      * exists x. split; [apply list_elem_of_here|done].
      * destruct (proj1 IH) as (y & Hy & Hfy); [lia|].
        exists y. split; [by apply list_elem_of_further|done].
    + intros (y & [-> | Hy]%elem_of_cons & Hfy); [lia|].
      assert (0 < sum_list_with f l) by (apply IH; eauto). lia.
Qed.

Lemma dir_cycle_count_pos files :
  0 < dir_cycle_count files ↔ ∃ c, cycle_in files c.
Proof.
  unfold dir_cycle_count, cycle_in. rewrite sum_list_with_pos. split.
  - intros (mat & Hmat & (cs & Hcs & Hlen)%sum_list_with_pos).
    destruct cs as [|c cs]; [simpl in Hlen; lia|].
    exists c, mat, (c :: cs). repeat split; [done..|apply list_elem_of_here].
  - intros (c & mat & cs & Hmat & Hcs & Hc). exists mat. split; [done|].
    apply sum_list_with_pos. exists cs. split; [done|].
    destruct cs; [by apply not_elem_of_nil in Hc|simpl; lia].
Qed.

(** The summary table is empty exactly when the dataset has no cycle. *)
Lemma summary_data_empty_iff (d : dataset F) (st : explorer F) :
  load_all d = Ok st → summary_data st = [] ↔ ∀ c, ¬ in_dataset d c.
Proof.
  intros Hlen%summary_length_all. unfold in_dataset. split.
  - intros Hnil c [Hc|Hc]; rewrite Hnil in Hlen; simpl in Hlen.
    + assert (0 < dir_cycle_count (charge_dir d))
        by (apply dir_cycle_count_pos; eauto). lia.
    + assert (0 < dir_cycle_count (partial_charge_dir d))
        by (apply dir_cycle_count_pos; eauto). lia.
  - intros Hnone. apply length_zero_iff_nil. rewrite Hlen.
    destruct (decide (0 < dir_cycle_count (charge_dir d))) as [Hc|Hc].
    { apply dir_cycle_count_pos in Hc as [c Hc]. destruct (Hnone c). by left. }
    destruct (decide (0 < dir_cycle_count (partial_charge_dir d))) as [Hp|Hp].
    { apply dir_cycle_count_pos in Hp as [c Hp]. destruct (Hnone c). by right. }
    lia.
Qed.

Lemma summarize_dataset_empty fmt (st : explorer F) fs :
  summary_data st = [] → summarize_dataset fmt st fs = Raise KeyError.
Proof. intros Hnil. unfold summarize_dataset. by rewrite Hnil. Qed.

(** Either every capacity cell unwraps, or the column holds an empty array
    and unwrapping raises [IndexError]. *)
Lemma capacity_column_cases data :
  Forall (λ r, ∃ ty cap, is_record r ty cap) data →
  (∃ ts, Forall2 flat_record data ts)
  ∨ (mapM flatten_capacity
       ((λ row, default missing (row !! 11)) <$> ((λ r, r.*2) <$> data))
     = Raise IndexError
     ∧ ∃ r ty, r ∈ data ∧ is_record r ty (VArray [])).
Proof.
  induction 1 as [|r data (ty & cap & Hr) _ IH].
  - left. exists []. constructor.
  - csimpl. rewrite mapM_cons.
    assert ((∃ x, flatten_capacity cap = Ok (VFloat x)) ∨ cap = VArray [])
      as [[x Hx] | ->].
    { destruct Hr as [???????????? Hshape].
      destruct cap as [n|s|x|[|x l]]; try done;
        [left|by right|left]; by eexists. }
    + assert (default missing (r.*2 !! 11) = cap) as -> by (by destruct Hr).
      rewrite Hx. simpl. destruct IH as [[ts Hts]|(Hraise & r' & ty' & Hin & Hr')].
      * left. exists ((ty, x) :: ts). constructor; [|done]. by exists cap.
      * right. rewrite Hraise. split; [done|].
        exists r', ty'. split; [by apply list_elem_of_further|done].
    + right. assert (default missing (r.*2 !! 11) = VArray []) as ->
        by (by inversion Hr).
      split; [done|]. exists r, ty. split; [apply list_elem_of_here|done].
Qed.

Lemma is_record_capacity r ty cap ty' cap' :
  is_record r ty cap → is_record r ty' cap' → cap = cap'.
Proof.
  intros Hr Hr'. destruct Hr. inversion Hr'. done.
Qed.

(** How [summarize_dataset] can fail on the table of a load: [KeyError] on
    the empty table, [IndexError] on a capacity cell that is an empty
    array. *)
Lemma summarize_dataset_Raise fmt (d : dataset F) (st : explorer F) fs e :
  load_all d = Ok st →
  summarize_dataset fmt st fs = Raise e →
  (e = KeyError ∧ summary_data st = [])
  ∨ (e = IndexError ∧ ∃ c, in_dataset d c ∧ capacity_indexable c
                           ∧ ¬ capacity_ok c).
Proof.
  intros Hload Hs.
  destruct (decide (summary_data st = [])) as [Hnil|Hne].
  { left. rewrite (summarize_dataset_empty _ _ _ Hnil) in Hs.
    by injection Hs as <-. }
  right.
  pose proof (summary_data_records _ _ Hload) as Hrec.
  destruct (capacity_column_cases _ Hrec)
    as [[ts Hts]|(Hraise & r & ty & Hin & Hr)].
  { destruct (summarize_dataset_Ok fmt st ts Hne Hts)
      as (? & ? & ? & _ & _ & _ & Hok). by rewrite Hok in Hs. }
  unfold summarize_dataset in Hs.
  rewrite (DataFrame_of_records _ Hne Hrec), df_getitem_capacity in Hs.
  cbn [mbind result_bind] in Hs. rewrite Hraise in Hs. injection Hs as <-.
  split; [done|].
  pose proof (summary_data_sources _ _ Hload) as Hsrc.
  rewrite Forall_forall in Hsrc.
  destruct (Hsrc r Hin) as (ty' & files & c & cap & Hsub & Hc & Hcap & Hr').
  pose proof (is_record_capacity _ _ _ _ _ Hr Hr') as <-.
  exists c. split; [|split].
  - unfold in_dataset.
    apply elem_of_cons in Hsub as [[= -> ->]|Hsub]; [by left|].
    apply list_elem_of_singleton in Hsub as [= -> ->]. by right.
  - apply index0_Ok_iff. by eexists.
  - unfold capacity_ok.
    destruct (capacity c) as [[|x xs]|[|[|x row] rows]]; simplify_eq/=; tauto.
Qed.

End Failures.

(** ** When the pipeline returns *)

Section PipelineReturns.
Context {F : Type} `{Arith F}.
Implicit Types (c : cycle F) (r : pydict F).

Lemma summary_data_nonempty_iff (d : dataset F) (st : explorer F) :
  load_all d = Ok st → summary_data st ≠ [] ↔ ∃ c, in_dataset d c.
Proof.
  intros Hload. pose proof (summary_length_all _ _ Hload) as Hlen. split.
  - intros Hne.
    assert (0 < length (summary_data st)) as Hpos.
    { destruct (summary_data st); [done|simpl; lia]. }
    destruct (decide (0 < dir_cycle_count (charge_dir d))) as [Hc|Hc].
    + apply dir_cycle_count_pos in Hc as [c Hc]. exists c. by left.
    + assert (0 < dir_cycle_count (partial_charge_dir d)) as Hp by lia.
      apply dir_cycle_count_pos in Hp as [c Hp]. exists c. by right.
  - intros [c Hc] Hnil.
    by apply (proj1 (summary_data_empty_iff _ _ Hload) Hnil c).
Qed.

(** Every cycle of the dataset has its record in the summary table. *)
Lemma summary_data_covers (d : dataset F) (st : explorer F) c :
  load_all d = Ok st → in_dataset d c →
  ∃ r ty cap, r ∈ summary_data st ∧ index0 (capacity c) = Ok cap
              ∧ is_record r ty cap.
Proof.
  intros Hload Hc. pose proof Hload as Hload'.
  apply load_all_Ok in Hload as (gc & gp & Hgc & Hgp & ->).
  assert (∃ ty gs mat b cs j e,
            dir_groups ty (gs : list (matfile F)) = Ok e
            ∧ (∀ g, g ∈ e → g ∈ gc ++ gp)
            ∧ mat ∈ gs ∧ mat !! b = Some cs ∧ cs !! j = Some c)
    as (ty & files & mat & b & cs & j & gs & Hgs & Hsub & Hmat & Hb & Hj).
  { destruct Hc as [(mat & cs & Hmat & Hcs & Hc)|(mat & cs & Hmat & Hcs & Hc)];
      apply list_elem_of_lookup in Hcs as [b Hb];
      apply list_elem_of_lookup in Hc as [j Hj].
    - exists "charge", (charge_dir d), mat, b, cs, j, gc.
      repeat split; try done. intros g Hg. apply elem_of_app. by left.
    - exists "partial_charge", (partial_charge_dir d), mat, b, cs, j, gp.
      repeat split; try done. intros g Hg. apply elem_of_app. by right. }
  destruct (dir_groups_elem_inv _ _ _ _ _ _ Hgs Hmat Hb) as (e & Hg & Hin).
  pose proof (battery_group_records _ _ _ _ _ Hg) as Hrecs.
  apply battery_group_Ok in Hg as (_ & rs & Hrs & Hcyc & _).
  destruct (imapM_lookup_inv _ _ _ _ _ _ Hrs Hj) as ([r cap] & Hrj & Hx).
  unfold extract_cycle in Hx. bind_inv Hx cap' Hcap. bind_inv Hx r' Hr'.
  injection Hx as -> ->.
  exists r, ty, cap. split; [|split; [done|]].
  - rewrite store_all_summary_data. simpl. apply list_elem_of_join.
    exists (cycles e). split.
    + rewrite Hcyc. apply list_elem_of_fmap. exists (r, cap).
      split; [done|]. by eapply list_elem_of_lookup_2.
    + apply list_elem_of_fmap. exists (battery_key (b + 1) ty, e).
      split; [done|]. by apply Hsub.
  - eapply cycle_features_is_record; [|done]. by eapply index0_has_shape.
Qed.

Lemma flattenable_capacity_ok c cap x :
  index0 (capacity c) = Ok cap → flatten_capacity cap = Ok (VFloat x) →
  capacity_ok c.
Proof.
  unfold capacity_ok.
  destruct (capacity c) as [[|y ys]|[|[|y row] rows]]; intros; by simplify_eq/=.
Qed.

(** X2: [main] returns a report exactly when the dataset has at least
    one cycle and every cycle has four non-empty signals and a capacity
    holding a scalar where the source reads it. *)
Theorem main_returns_iff fmt (w : world F) :
  (∃ rep w', main fmt w = Ok (rep, w'))
  ↔ (∃ c, in_dataset (data_root w) c)
    ∧ ∀ c, in_dataset (data_root w) c →
           ¬ has_empty_signal c ∧ capacity_ok c.
Proof.
  split.
  - intros (rep & w' & (st & fs' & Hload & Hs & _)%main_Ok).
    destruct (summarize_dataset_inv _ _ _ _ (summary_data_records _ _ Hload) Hs)
      as (Hne & ts & Hts).
    split; [by apply (summary_data_nonempty_iff _ _ Hload)|].
    intros c Hc. split.
    + apply (proj1 (load_all_Ok_iff (data_root w))); [by exists st|done].
    + destruct (summary_data_covers _ _ _ Hload Hc)
        as (r & ty & cap & Hin & Hcap & Hr).
      apply list_elem_of_lookup in Hin as [i Hi].
      destruct (Forall2_lookup_l _ _ _ _ _ Hts Hi) as (t & _ & cap' & Hr' & Hf).
      rewrite <-(is_record_capacity _ _ _ _ _ Hr Hr') in Hf.
      by eapply flattenable_capacity_ok.
  - intros [Hex Hall].
    destruct (proj2 (load_all_Ok_iff (data_root w))) as [st Hload].
    { intros c Hc. destruct (Hall c Hc) as [Hne Hok].
      split; [done|]. by apply capacity_ok_indexable. }
    destruct (load_all_flat _ _ Hload) as [ts Hts].
    { intros c Hc. by apply Hall. }
    pose proof (proj2 (summary_data_nonempty_iff _ _ Hload) Hex) as Hne.
    destruct (summarize_dataset_Ok fmt st ts Hne Hts)
      as (mn & mx & grouped & _ & _ & _ & Hs).
    eexists _, _. apply main_Ok. exists st. eexists.
    split; [done|]. split; [apply Hs|done].
Qed.

(** X3: [main] can fail in three ways only.  [IndexError]: some cycle has
    no scalar capacity (raised at load when the capacity array is empty, at
    the summary when its first row is).  [ValueError]: some cycle has an
    empty signal.  [KeyError]: the dataset has no cycle at all, so the table
    has no [capacity] column. *)
Theorem main_failure_causes fmt (w : world F) e :
  main fmt w = Raise e →
  (e = IndexError ∧ ∃ c, in_dataset (data_root w) c ∧ ¬ capacity_ok c)
  ∨ (e = ValueError
     ∧ ∃ c, in_dataset (data_root w) c ∧ has_empty_signal c
            ∧ capacity_indexable c)
  ∨ (e = KeyError ∧ ∀ c, ¬ in_dataset (data_root w) c).
Proof.
  rewrite load_all_main. intros Hm.
  destruct (load_all (data_root w)) as [st|e'] eqn:Hload; simpl in Hm.
  - destruct (summarize_dataset fmt st (written w)) as [rf|e'] eqn:Hs;
      simpl in Hm; [done|]. injection Hm as ->.
    destruct (summarize_dataset_Raise _ _ _ _ _ Hload Hs)
      as [[-> Hnil]|[-> (c & Hc & _ & Hnok)]].
    + right. right. split; [done|].
      by apply (summary_data_empty_iff _ _ Hload).
    + left. split; [done|]. by exists c.
  - injection Hm as ->.
    destruct (load_all_Raise _ _ Hload) as (c & ty & b & j & Hc & Hx).
    destruct (extract_cycle_Raise _ _ _ _ _ Hx)
      as [[-> Hnidx]|(-> & Hidx & Hempty)].
    + left. split; [done|]. exists c. split; [done|].
      intros Hok. by apply Hnidx, capacity_ok_indexable.
    + right. left. split; [done|]. by exists c.
Qed.

(** X4: on a dataset without any cycle (no file, files without batteries,
    batteries without cycles) the loads return, and [summarize_dataset]
    raises [KeyError]: the empty table has no [capacity] column. *)
Theorem main_no_cycle_KeyError fmt (w : world F) :
  (∀ c, ¬ in_dataset (data_root w) c) →
  (∃ st, load_all (data_root w) = Ok st ∧ summary_data st = [])
  ∧ main fmt w = Raise KeyError.
Proof.
  intros Hnone.
  destruct (proj2 (load_all_Ok_iff (data_root w))) as [st Hload].
  { intros c Hc. by destruct (Hnone c). }
  pose proof (proj2 (summary_data_empty_iff _ _ Hload) Hnone) as Hnil.
  split; [by exists st|].
  rewrite load_all_main, Hload. simpl.
  by rewrite (summarize_dataset_empty _ _ _ Hnil).
Qed.

End PipelineReturns.

(** ** Entries and records *)

Section EntriesAndRecords.
Context {F : Type} `{Arith F}.
Implicit Types (c : cycle F) (r : pydict F) (e : battery_entry F).

Lemma Forall2_fmap_same {A B C} (P : B → C → Prop) (f : A → B) (g : A → C)
    (l : list A) :
  Forall (λ x, P (f x) (g x)) l → Forall2 P (f <$> l) (g <$> l).
Proof. induction 1; csimpl; by constructor. Qed.

(** X5: in every entry of the mapping the list [capacities] runs parallel
    to [cycles]: same length, and its [j]-th element is the [capacity] field
    of the [j]-th record, which is the value read at line 56, not yet
    unwrapped. *)
Theorem entry_capacities_parallel (d : dataset F) (st : explorer F) k e :
  load_all d = Ok st →
  battery_data st !! k = Some e →
  Forall2 (λ r v, dict_get r "capacity" = Some v) (cycles e) (capacities e)
  ∧ ∃ ty files mat b cs,
      (ty, files) ∈ subdirs d ∧ mat ∈ files ∧ mat !! b = Some cs
      ∧ Forall2 (λ c v, index0 (capacity c) = Ok v) cs (capacities e).
Proof.
  intros Hload Hk.
  destruct (battery_data_lookup _ _ _ _ Hload Hk)
    as (ty & files & mat & b & cs & Hsub & Hmat & Hb & Hg).
  apply battery_group_Ok in Hg as (_ & rs & Hrs & -> & ->).
  assert (∀ j rc, rs !! j = Some rc →
            ∃ c, cs !! j = Some c ∧ index0 (capacity c) = Ok rc.2
                 ∧ dict_get rc.1 "capacity" = Some rc.2) as Hrc.
  { intros j [r cap] Hj.
    destruct (imapM_lookup _ _ _ _ _ _ Hrs Hj) as (c & Hc & Hx).
    unfold extract_cycle in Hx. bind_inv Hx cap' Hcap. bind_inv Hx r' Hr'.
    injection Hx as <- <-. exists c. split; [done|]. split; [done|].
    by apply cycle_features_fields in Hr' as (_ & _ & _ & _ & ?). }
  split.
  - apply Forall2_fmap_same, Forall_lookup. intros j rc Hj.
    by destruct (Hrc j rc Hj) as (c & _ & _ & ?).
  - exists ty, files, mat, b, cs. repeat split; try done.
    apply Forall2_same_length_lookup. split.
    + rewrite length_fmap. symmetry. by eapply imapM_length.
    + intros j c v Hc Hv. rewrite list_lookup_fmap in Hv.
      destruct (rs !! j) as [rc|] eqn:Hj; simplify_eq/=.
      destruct (Hrc j rc Hj) as (c' & Hc' & Hcap & _). by simplify_eq.
Qed.

(** The origin of a record of the summary table. *)
Lemma summary_data_origin (d : dataset F) (st : explorer F) r :
  load_all d = Ok st → r ∈ summary_data st →
  ∃ ty files mat b cs j c cap,
    (ty, files) ∈ subdirs d ∧ mat ∈ files ∧ mat !! b = Some cs
    ∧ cs !! j = Some c ∧ index0 (capacity c) = Ok cap
    ∧ cycle_features ty b j c cap = Ok r.
Proof.
  intros (gc & gp & Hgc & Hgp & ->)%load_all_Ok.
  rewrite store_all_summary_data. simpl.
  intros (l & Hr & Hl)%list_elem_of_join.
  apply list_elem_of_fmap in Hl as ([k e] & -> & Hin). simpl in Hr.
  assert (∃ ty files, (ty, files) ∈ subdirs d
            ∧ ∃ mat b cs, mat ∈ files ∧ mat !! b = Some cs
                          ∧ battery_group ty b cs = Ok (k, e))
    as (ty & files & Hsub & mat & b & cs & Hmat & Hb & Hg).
  { apply elem_of_app in Hin as [Hin|Hin].
    - exists "charge", (charge_dir d). split; [apply list_elem_of_here|].
      by eapply dir_groups_elem.
    - exists "partial_charge", (partial_charge_dir d).
      split; [apply list_elem_of_further, list_elem_of_here|].
      by eapply dir_groups_elem. }
  apply battery_group_Ok in Hg as (_ & rs & Hrs & Hcyc & _).
  rewrite Hcyc in Hr. apply list_elem_of_fmap in Hr as ([r' cap] & -> & Hrc).
  apply list_elem_of_lookup in Hrc as [j Hj].
  destruct (imapM_lookup _ _ _ _ _ _ Hrs Hj) as (c & Hc & Hx).
  unfold extract_cycle in Hx. bind_inv Hx cap' Hcap. bind_inv Hx r'' Hr''.
  injection Hx as <- <-.
  exists ty, files, mat, b, cs, j, c, cap'. by repeat split.
Qed.

(** X6: every record of the summary table has the twelve keys of the dict
    literal in its order, a 1-based [battery_id] (battery position plus
    one), the label of the subdirectory it was loaded from as [cycle_type],
    a 0-based [cycle_idx], and is the feature record of the cycle found at
    this position of some file of that subdirectory. *)
Theorem record_schema (d : dataset F) (st : explorer F) r :
  load_all d = Ok st →
  r ∈ summary_data st →
  dict_keys r = feature_keys
  ∧ ∃ ty files mat b cs j c cap,
      (ty, files) ∈ subdirs d ∧ mat ∈ files ∧ mat !! b = Some cs
      ∧ cs !! j = Some c
      ∧ dict_get r "battery_id" = Some (VInt (S b))
      ∧ dict_get r "cycle_type" = Some (VStr ty)
      ∧ dict_get r "cycle_idx" = Some (VInt j)
      ∧ dict_get r "capacity" = Some cap
      ∧ index0 (capacity c) = Ok cap
      ∧ cycle_features ty b j c cap = Ok r.
Proof.
  intros Hload Hr.
  destruct (summary_data_origin _ _ _ Hload Hr)
    as (ty & files & mat & b & cs & j & c & cap & Hsub & Hmat & Hb & Hj
        & Hcap & Hf).
  destruct (cycle_features_fields _ _ _ _ _ _ Hf)
    as (Hkeys & Hid & Hty & Hidx & Hc).
  split; [done|]. exists ty, files, mat, b, cs, j, c, cap.
  rewrite Nat.add_1_r in Hid. by repeat split.
Qed.

End EntriesAndRecords.

(** ** Maxima and minima are attained *)

Section Attained.
Context {F : Type} `{Arith F}.
Implicit Types (a : list F).






End Attained.

(** ** Loading into an explorer that already holds data *)

Section Reload.
Context {F : Type} `{Arith F}.
Implicit Types (m : gmap string (battery_entry F))
  (gs : list (string * battery_entry F)) (self : explorer F).

Lemma insert_all_agree m1 m2 gs :
  (∀ k, k ∉ gs.*1 → m1 !! k = m2 !! k) → insert_all m1 gs = insert_all m2 gs.
Proof.
  revert m1 m2. induction gs as [|[k0 e0] gs IH]; intros m1 m2 Hagree.
  - apply map_eq. intros k. apply Hagree, not_elem_of_nil.
  - simpl. apply IH. intros k Hk. rewrite !lookup_insert.
    case_decide; [done|]. apply Hagree. rewrite fmap_cons.
    by apply not_elem_of_cons.
Qed.

Lemma insert_all_twice m gs : insert_all (insert_all m gs) gs = insert_all m gs.
Proof.
  apply insert_all_agree. intros k Hk. by apply insert_all_lookup_notin.
Qed.

Lemma store_all_eq self gs :
  store_all self gs =
  {| output_dir := output_dir self;
     battery_data := insert_all (battery_data self) gs;
     summary_data := summary_data self ++ mjoin ((λ g, cycles g.2) <$> gs) |}.
Proof.
  rewrite <-store_all_battery_data, <-store_all_summary_data,
    <-(store_all_output_dir self gs). by destruct (store_all self gs).
Qed.

Lemma dir_groups_keys_label ty (files : list (matfile F)) gs k :
  dir_groups ty files = Ok gs → k ∈ gs.*1 → ∃ n, k = battery_key n ty.
Proof.
  intros Hd. rewrite (dir_groups_keys _ _ _ Hd).
  intros (p & -> & Hp)%list_elem_of_fmap.
  apply dir_pairs_elem in Hp as (mat & i & _ & _ & ->). by eexists.
Qed.

Lemma dir_groups_types ty (files : list (matfile F)) gs :
  dir_groups ty files = Ok gs →
  Forall (λ r, cycle_type_of r = Some ty) (mjoin ((λ g, cycles g.2) <$> gs)).
Proof.
  intros Hd. apply Forall_forall. intros r (l & Hr & Hl)%list_elem_of_join.
  apply list_elem_of_fmap in Hl as ([k e] & -> & Hin). simpl in Hr.
  destruct (dir_groups_elem _ _ _ _ _ Hd Hin) as (mat & b & cs & _ & _ & Hg).
  apply battery_group_records in Hg. rewrite Forall_forall in Hg.
  destruct (Hg r Hr) as (c & cap & _ & _ & Hrec). by destruct Hrec.
Qed.

(** X9: a load routine only appends to the summary table and only writes
    the keys of its own cycle type.  Whatever the explorer held before:
    the output directory is kept, the old table is a prefix of the new one
    and the appended records all carry the routine's label, an entry under
    any other key (in particular under a key of the other cycle type) is
    left as it was, and no entry disappears. *)
Theorem load_frame (load : dataset F → explorer F → result (explorer F))
    ty (d : dataset F) self self' :
  (load = load_charge_data ∧ ty = "charge")
  ∨ (load = load_partial_charge_data ∧ ty = "partial_charge") →
  load d self = Ok self' →
  output_dir self' = output_dir self
  ∧ (∃ new, summary_data self' = summary_data self ++ new
            ∧ Forall (λ r, cycle_type_of r = Some ty) new)
  ∧ (∀ k, (∀ n, k ≠ battery_key n ty) →
          battery_data self' !! k = battery_data self !! k)
  ∧ (∀ k, is_Some (battery_data self !! k) →
          is_Some (battery_data self' !! k)).
Proof.
  intros Hwhich Hload.
  assert (∃ files, file_loop ty files self = Ok self') as [files Hfl].
  { destruct Hwhich as [[-> ->]|[-> ->]]; by eexists. }
  clear Hwhich Hload. rewrite file_loop_spec in Hfl. bind_inv Hfl gs Hgs.
  injection Hfl as <-. rewrite store_all_eq. simpl.
  split; [done|]. split; [|split].
  - eexists. split; [done|]. by eapply dir_groups_types.
  - intros k Hk. apply insert_all_lookup_notin. intros Hin.
    destruct (dir_groups_keys_label _ _ _ _ Hgs Hin) as [n ->]. by apply (Hk n).
  - intros k Hsome. apply elem_of_dom. rewrite dom_insert_all.
    apply elem_of_union. left. by apply elem_of_dom.
Qed.

(** X10: the load routines are not idempotent on the explorer: calling
    one a second time on the same object leaves the mapping as it is, every
    entry being replaced by an equal one, but appends all its records to the
    summary table once more. *)
Theorem reload_appends (load : dataset F → explorer F → result (explorer F))
    (d : dataset F) self self1 :
  load = load_charge_data ∨ load = load_partial_charge_data →
  load d self = Ok self1 →
  ∃ new,
    summary_data self1 = summary_data self ++ new
    ∧ load d self1 =
      Ok {| output_dir := output_dir self1;
            battery_data := battery_data self1;
            summary_data := summary_data self1 ++ new |}.
Proof.
  intros Hwhich Hload.
  assert (∃ ty files, (∀ s, load d s = file_loop ty files s))
    as (ty & files & Hfl).
  { destruct Hwhich as [-> | ->]; by eexists _, _. }
  rewrite Hfl in Hload. rewrite Hfl. clear Hfl Hwhich.
  rewrite file_loop_spec in Hload. bind_inv Hload gs Hgs.
  injection Hload as <-. rewrite file_loop_spec, Hgs. simpl.
  exists (mjoin ((λ g, cycles g.2) <$> gs)).
  rewrite !store_all_eq. simpl. split; [done|].
  by rewrite insert_all_twice.
Qed.

End Reload.

(** ** How many entries the mapping has *)

Lemma max_list_with_lt {A} (f : A → nat) (l : list A) i :
  i < max_list_with f l ↔ ∃ x, x ∈ l ∧ i < f x.
Proof.
  induction l as [|x l IH]; simpl.
  - split; [lia|]. by intros (x & Hx%not_elem_of_nil & _).
  - split.
    + intros Hi. destruct (decide (i < f x)) as [Hx|Hx].
      * exists x. split; [apply list_elem_of_here|done].
      * destruct (proj1 IH) as (y & Hy & Hfy); [lia|].
        exists y. split; [by apply list_elem_of_further|done].
    + intros (y & [-> | Hy]%elem_of_cons & Hfy); [lia|].
      assert (i < max_list_with f l) by (apply IH; eauto). lia.
Qed.

Section EntryCount.
Context {F : Type} `{Arith F}.
Implicit Types (files : list (matfile F))
  (gs : list (string * battery_entry F)).

(** The distinct battery positions of a subdirectory are those of its file
    with the most batteries. *)
Lemma dir_pairs_distinct ty files :
  length (remove_dups (dir_pairs ty files)) = max_list_with length files.
Proof.
  rewrite <-size_list_to_set_remove_dups.
  assert (list_to_set (dir_pairs ty files)
          =@{gset (nat * string)}
          list_to_set ((λ i, (i + 1, ty)) <$> seq 0 (max_list_with length files)))
    as ->.
  { apply set_eq. intros p. rewrite !elem_of_list_to_set, dir_pairs_elem.
    rewrite list_elem_of_fmap. split.
    - intros (mat & i & Hmat & Hi & ->). exists i. split; [done|].
      apply elem_of_seq. split; [lia|]. simpl. apply max_list_with_lt. eauto.
    - intros (i & -> & Hi). apply elem_of_seq in Hi as [_ Hi]. simpl in Hi.
      apply max_list_with_lt in Hi as (mat & Hmat & Hi). by exists mat, i. }
  rewrite size_list_to_set, length_fmap, length_seq; [done|].
  apply NoDup_fmap_2; [|apply NoDup_seq]. intros i j [= Hij]. lia.
Qed.

Lemma remove_dups_app_disjoint `{Countable A} (l1 l2 : list A) :
  (∀ x, x ∈ l1 → x ∉ l2) →
  length (remove_dups (l1 ++ l2))
  = length (remove_dups l1) + length (remove_dups l2).
Proof.
  intros Hdisj. rewrite <-!size_list_to_set_remove_dups, list_to_set_app_L.
  apply size_union. intros x. rewrite !elem_of_list_to_set. apply Hdisj.
Qed.

Lemma loaded_pairs_distinct (d : dataset F) :
  length (remove_dups (loaded_pairs d))
  = max_list_with length (charge_dir d)
    + max_list_with length (partial_charge_dir d).
Proof.
  unfold loaded_pairs. rewrite remove_dups_app_disjoint.
  - by rewrite !dir_pairs_distinct.
  - intros p (mat & i & _ & _ & ->)%dir_pairs_elem
      (mat' & i' & _ & _ & Heq)%dir_pairs_elem. discriminate.
Qed.

Lemma size_insert_all_empty gs :
  size (insert_all (∅ : gmap string (battery_entry F)) gs)
  = length (remove_dups gs.*1).
Proof.
  rewrite <-(size_dom (D := gset string)), dom_insert_all, dom_empty_L.
  by rewrite (left_id_L ∅ (∪)), size_list_to_set_remove_dups.
Qed.

(** X11: the number of entries of the mapping after the two loads, which
    [summarize_dataset] prints as "Total Batteries", is the largest number
    of batteries in a file of [charge/] plus the largest number of batteries
    in a file of [partial_charge/]. *)
Theorem total_batteries_max_per_directory fmt (d : dataset F)
    (st : explorer F) fs rep fs' :
  load_all d = Ok st →
  summarize_dataset fmt st fs = Ok (rep, fs') →
  size (battery_data st)
  = max_list_with length (charge_dir d)
    + max_list_with length (partial_charge_dir d)
  ∧ total_batteries rep = size (battery_data st).
Proof.
  intros Hload Hs. split.
  - by rewrite (size_battery_data _ _ Hload), loaded_pairs_distinct.
  - by destruct (summarize_after_load _ _ _ _ _ _ Hload Hs)
      as (ts & _ & _ & _ & _ & _ & _ & -> & _).
Qed.

(** X12: the counts the two load routines print, in the order [main]
    calls them.  [load_charge_data] prints the number of charge entries;
    [load_partial_charge_data] prints the size of the whole mapping, the
    charge entries included, not the number of partial-charge entries. *)
Theorem printed_counts (d : dataset F) st1 n1 st2 n2 :
  load_charge_data_printed d (init "output") = Ok (st1, n1) →
  load_partial_charge_data_printed d st1 = Ok (st2, n2) →
  load_all d = Ok st2
  ∧ n1 = max_list_with length (charge_dir d)
  ∧ n2 = max_list_with length (charge_dir d)
         + max_list_with length (partial_charge_dir d).
Proof.
  unfold load_charge_data_printed, load_partial_charge_data_printed.
  intros H1 H2. bind_inv H1 s1 Hs1. injection H1 as -> <-.
  bind_inv H2 s2 Hs2. injection H2 as -> <-.
  assert (load_all d = Ok st2) as Hload.
  { unfold load_all. by rewrite Hs1. }
  split; [done|]. split.
  - unfold load_charge_data in Hs1. rewrite file_loop_spec in Hs1.
    bind_inv Hs1 gc Hgc. injection Hs1 as <-.
    rewrite store_all_battery_data. simpl.
    rewrite size_insert_all_empty, (dir_groups_keys _ _ _ Hgc).
    rewrite remove_dups_fmap_length by apply _. apply dir_pairs_distinct.
  - by rewrite (size_battery_data _ _ Hload), loaded_pairs_distinct.
Qed.

End EntryCount.

(** ** The rows of the grouped table and the files written *)

Lemma fmap_const_replicate {A B} (f : A → B) (v : B) (l : list A) :
  Forall (λ x, f x = v) l → f <$> l = replicate (length l) v.
Proof. induction 1 as [|x l Hx _ IH]; csimpl; [done|]. by rewrite Hx, IH. Qed.

Lemma remove_dups_two_runs `{EqDecision A} (a b : A) n m :
  a ≠ b →
  remove_dups (replicate n a ++ replicate m b)
  = (if decide (n = 0) then [] else [a]) ++ (if decide (m = 0) then [] else [b]).
Proof.
  intros Hab. induction n as [|n IH]; simpl.
  - induction m as [|m IHm]; simpl; [done|].
    destruct (decide_rel elem_of b (replicate m b)) as [Hin|Hin].
    + rewrite IHm. destruct m; [by apply not_elem_of_nil in Hin|done].
    + destruct m; [done|]. destruct Hin. apply list_elem_of_here.
  - destruct (decide_rel elem_of a (replicate n a ++ replicate m b))
      as [Hin|Hin].
    + rewrite IH. destruct n; [|done]. simpl in Hin.
      by apply elem_of_replicate in Hin as [? _].
    + destruct n; simpl in *.
      * rewrite IH. done.
      * destruct Hin. apply list_elem_of_here.
Qed.

Section GroupedRows.
Context {F : Type} `{Arith F}.
Implicit Types (ts : list (string * F)) (gs : list (string * battery_entry F)).

Lemma grouped_of_keys ts (grouped : list (string * agg_row F)) :
  grouped_of ts grouped →
  grouped.*1 = merge_sort String.le (remove_dups ts.*1).
Proof.
  unfold grouped_of. generalize (merge_sort String.le (remove_dups ts.*1)).
  intros groups Hg. induction Hg as [|g gr groups grouped [Hk _] _ IH]; [done|].
  csimpl. by rewrite Hk, IH.
Qed.

Lemma length_join_cycles gs :
  length (mjoin ((λ g, cycles g.2) <$> gs))
  = sum_list_with (λ g, length (cycles g.2)) gs.
Proof.
  induction gs as [|g gs IH]; csimpl; [done|]. by rewrite length_app, IH.
Qed.

Lemma summary_data_types (d : dataset F) (st : explorer F) :
  load_all d = Ok st →
  cycle_type_of <$> summary_data st
  = replicate (dir_cycle_count (charge_dir d)) (Some "charge")
    ++ replicate (dir_cycle_count (partial_charge_dir d)) (Some "partial_charge").
Proof.
  intros (gc & gp & Hgc & Hgp & ->)%load_all_Ok.
  rewrite store_all_summary_data. simpl. rewrite fmap_app, join_app, fmap_app.
  rewrite (fmap_const_replicate _ _ _ (dir_groups_types _ _ _ Hgc)).
  rewrite (fmap_const_replicate _ _ _ (dir_groups_types _ _ _ Hgp)).
  by rewrite !length_join_cycles, (dir_groups_count _ _ _ Hgc),
    (dir_groups_count _ _ _ Hgp).
Qed.

Lemma flat_record_types (data : list (pydict F)) ts :
  Forall2 flat_record data ts → cycle_type_of <$> data = Some <$> ts.*1.
Proof.
  induction 1 as [|r t data ts [_ Ht]%flat_record_capacity _ IH]; [done|].
  csimpl. by rewrite Ht, IH.
Qed.

(** X13: the grouped table has one row per cycle type that has at least
    one cycle, in alphabetical order: the row of "charge" if [charge/] holds
    a cycle, then the row of "partial_charge" if [partial_charge/] does; so
    at most two rows, and [charge] first. *)
Theorem grouped_rows fmt (d : dataset F) (st : explorer F) fs rep fs' :
  load_all d = Ok st →
  summarize_dataset fmt st fs = Ok (rep, fs') →
  (grouped_stats rep).*1
  = (if decide (dir_cycle_count (charge_dir d) = 0) then [] else ["charge"])
    ++ (if decide (dir_cycle_count (partial_charge_dir d) = 0) then []
        else ["partial_charge"]).
Proof.
  intros Hload Hs.
  destruct (summarize_after_load _ _ _ _ _ _ Hload Hs)
    as (ts & Hts & _ & _ & _ & _ & _ & _ & _ & _ & Hg & _).
  rewrite (grouped_of_keys _ _ Hg).
  assert (ts.*1 = replicate (dir_cycle_count (charge_dir d)) "charge"
                  ++ replicate (dir_cycle_count (partial_charge_dir d))
                       "partial_charge") as ->.
  { apply (inj (fmap Some)).
    rewrite <-(flat_record_types _ _ Hts), (summary_data_types _ _ Hload).
    by rewrite fmap_app, !fmap_replicate. }
  rewrite remove_dups_two_runs by done.
  by destruct (decide (dir_cycle_count (charge_dir d) = 0)),
    (decide (dir_cycle_count (partial_charge_dir d) = 0)).
Qed.

(** X14: a run that returns has written exactly two files,
    [output/battery_cycle_summary.csv] with the per-cycle table and
    [output/battery_cycle_type_summary.csv] with the grouped table (first
    line [cycle_type,mean,min,max,std]); every other file is as it was, and
    the dataset is not changed. *)
Theorem main_writes_two_files fmt (w : world F) rep w' :
  main fmt w = Ok (rep, w') →
  data_root w' = data_root w
  ∧ written w' !! "output/battery_cycle_summary.csv"
    = Some (to_csv fmt (summary_df rep))
  ∧ written w' !! "output/battery_cycle_type_summary.csv"
    = Some (grouped_to_csv fmt (grouped_stats rep))
  ∧ (∃ body, grouped_to_csv fmt (grouped_stats rep)
             = csv_line ["cycle_type"; "mean"; "min"; "max"; "std"] +:+ body)
  ∧ ∀ p, p ≠ "output/battery_cycle_summary.csv" →
         p ≠ "output/battery_cycle_type_summary.csv" →
         written w' !! p = written w !! p.
Proof.
  intros (st & fs' & Hload & Hs & ->)%main_Ok. simpl.
  assert (output_dir st = "output") as Hout.
  { apply load_all_Ok in Hload as (gc & gp & _ & _ & ->).
    by rewrite store_all_output_dir. }
  destruct (summarize_after_load _ _ _ _ _ _ Hload Hs)
    as (ts & _ & _ & _ & _ & _ & _ & _ & _ & _ & _ & ->).
  rewrite Hout.
  change (path_join "output" "battery_cycle_type_summary.csv")
    with "output/battery_cycle_type_summary.csv".
  change (path_join "output" "battery_cycle_summary.csv")
    with "output/battery_cycle_summary.csv".
  split; [done|]. split; [|split; [|split]].
  - by rewrite lookup_insert_ne, lookup_insert_eq.
  - by rewrite lookup_insert_eq.
  - unfold grouped_to_csv. destruct (grouped_stats rep) as [|g gr]; csimpl.
    + exists "". by rewrite string_app_empty_r.
    + by eexists.
  - intros p Hp1 Hp2. by rewrite !lookup_insert_ne.
Qed.

End GroupedRows.

(** ** The report in exact arithmetic *)

Section ExactReport.
Import Exact.

Lemma minimum_reals (a b : R) : minimum (XR a) (XR b) = XR (Rmin a b).
Proof.
  unfold minimum, fisnan, Rmin. simpl.
  destruct (Req_EM_T a a) as [_|Hne]; [|done]. simpl.
  rewrite orb_false_r. by destruct (Rle_dec a b).
Qed.

Lemma xmin_reals (a : R) (l : list R) :
  foldl minimum (XR a) (XR <$> l) = XR (foldl Rmin a l).
Proof.
  revert a. induction l as [|x l IH]; intros a; [done|].
  csimpl. rewrite minimum_reals. apply IH.
Qed.

Lemma foldl_Rmin_le (a : R) (l : list R) :
  (foldl Rmin a l <= a)%R ∧ Forall (λ y, (foldl Rmin a l <= y)%R) l.
Proof.
  revert a. induction l as [|x l IH]; intros a; simpl.
  - split; [lra|constructor].
  - destruct (IH (Rmin a x)) as [Hm Hl]. split.
    + pose proof (Rmin_l a x). lra.
    + constructor; [|done]. pose proof (Rmin_r a x). lra.
Qed.

Lemma foldl_Rplus_ge (m a : R) (l : list R) :
  Forall (λ y, (m <= y)%R) l →
  (a + INR (length l) * m <= foldl Rplus a l)%R.
Proof.
  intros Hl. revert a. induction Hl as [|x l Hx _ IH]; intros a.
  - simpl. lra.
  - cbn [foldl length]. rewrite S_INR. specialize (IH (a + x)%R). lra.
Qed.

(** Mean, minimum and maximum of a non-empty sequence of reals. *)
Lemma stats_reals (l : list R) :
  l ≠ [] →
  ∃ m mn mx,
    np_mean (XR <$> l) = XR m ∧ np_min (XR <$> l) = Ok (XR mn)
    ∧ np_max (XR <$> l) = Ok (XR mx) ∧ (mn <= m <= mx)%R.
Proof.
  intros Hne. destruct (mean_le_max l Hne) as (m & mx & Hm & Hmx & Hle).
  rewrite np_mean_reals in Hm by done. injection Hm as <-.
  destruct l as [|x l]; [done|].
  eexists _, (foldl Rmin x l), mx. split; [by apply np_mean_reals|].
  split; [csimpl; by rewrite xmin_reals|]. split; [done|]. split; [|done].
  assert (INR (length (x :: l)) ≠ 0%R) as Hn by (by apply not_0_INR).
  destruct (foldl_Rmin_le x l) as [Hx Hl].
  assert (Forall (λ y, (foldl Rmin x l <= y)%R) (x :: l)) as Hall
    by (by constructor).
  pose proof (foldl_Rplus_ge (foldl Rmin x l) 0 (x :: l) Hall) as Hsum.
  assert (0 < INR (length (x :: l)))%R as Hpos.
  { apply lt_0_INR. simpl. lia. }
  apply (Rmult_le_reg_r (INR (length (x :: l)))); [done|].
  unfold Rdiv. rewrite Rmult_assoc, Rinv_l by done. lra.
Qed.

(** On real numbers the kernels of the grouped table, which differ from
    numpy's in binary64, return numpy's mean, minimum and maximum. *)
Lemma aggregate_reals (l : list R) :
  l ≠ [] →
  agg_mean (aggregate (XR <$> l)) = np_mean (XR <$> l)
  ∧ np_min (XR <$> l) = Ok (agg_min (aggregate (XR <$> l)))
  ∧ np_max (XR <$> l) = Ok (agg_max (aggregate (XR <$> l))).
Proof.
  intros Hl. cbn [aggregate agg_mean agg_min agg_max].
  rewrite group_mean_reals, np_mean_reals by done.
  destruct l as [|x l]; [done|].
  rewrite group_min_reals, group_max_reals, fmap_cons.
  cbn [np_min np_max]. by rewrite xmin_reals, xmax_reals.
Qed.

Lemma sum_sq_dev_reals (l : list R) :
  l ≠ [] → ∃ ss, sum_sq_dev (XR <$> l) = XR ss ∧ (0 <= ss)%R.
Proof.
  intros Hne. unfold sum_sq_dev.
  rewrite mean_of_reals, sq_dev_reals, total_reals by done.
  eexists. split; [reflexivity|].
  set (m := (foldl Rplus 0 l / INR (length l))%R).
  pose proof (foldl_Rplus_ge 0 0 ((λ x, (x - m) * (x - m))%R <$> l)) as Hge.
  rewrite Rmult_0_r, Rplus_0_r in Hge. apply Hge.
  apply Forall_fmap, Forall_forall. intros x _. simpl.
  apply Rle_0_sqr.
Qed.

Lemma xsqrt_xdiv_pos (ss : R) (n : nat) :
  (0 <= ss)%R → n ≠ 0 →
  ∃ s, xsqrt (xdiv (XR ss) (XR (INR n))) = XR s ∧ (0 <= s)%R.
Proof.
  intros Hss Hn. exists (sqrt (ss / INR n)). unfold xdiv.
  destruct (Req_EM_T (INR n) 0) as [Hz|_]; [by apply not_0_INR in Hz|].
  unfold xsqrt.
  assert (0 <= ss / INR n)%R as Hq.
  { apply Rmult_le_pos; [done|]. left. apply Rinv_0_lt_compat, lt_0_INR. lia. }
  destruct (Rlt_dec (ss / INR n) 0); [lra|]. split; [done|apply sqrt_pos].
Qed.

Lemma population_std_reals (l : list R) :
  l ≠ [] → ∃ s, population_std (XR <$> l) = XR s ∧ (0 <= s)%R.
Proof.
  intros Hne. destruct (sum_sq_dev_reals l Hne) as (ss & Hss & Hpos).
  unfold population_std. rewrite Hss, length_fmap.
  apply (xsqrt_xdiv_pos ss (length l)); [done|]. by destruct l.
Qed.

Lemma sample_std_reals (l : list R) :
  2 ≤ length l → ∃ s, sample_std (XR <$> l) = XR s ∧ (0 <= s)%R.
Proof.
  intros Hlen. destruct (sum_sq_dev_reals l) as (ss & Hss & Hpos).
  { intros ->. simpl in Hlen. lia. }
  unfold sample_std. rewrite Hss, length_fmap.
  apply (xsqrt_xdiv_pos ss (length l - 1)); [done|lia].
Qed.

(** The capacities of a row of the grouped table. *)
Lemma grouped_row_reals fmt (d : dataset xreal) (st : explorer xreal)
    fs rep fs' (l : list R) ty row :
  load_all d = Ok st →
  summarize_dataset fmt st fs = Ok (rep, fs') →
  all_capacities (summary_data st) = XR <$> l →
  (ty, row) ∈ grouped_stats rep →
  ∃ l', l' ≠ [] ∧ group_capacities (summary_data st) ty = XR <$> l'
        ∧ row = aggregate (XR <$> l').
Proof.
  intros Hload Hs Hall Hin.
  destruct (summarize_after_load _ _ _ _ _ _ Hload Hs)
    as (ts & Hts & _ & _ & _ & _ & _ & _ & _ & _ & Hg & _).
  rewrite (all_capacities_flat _ _ Hts) in Hall.
  rewrite (group_capacities_flat _ _ _ Hts).
  apply list_elem_of_lookup in Hin as [i Hi].
  destruct (Forall2_lookup_r _ _ _ _ _ Hg Hi) as (g & Hgi & Hty & Hagg).
  simpl in Hty, Hagg. subst g.
  assert (caps_of ty ts ≠ []) as Hne.
  { apply caps_of_nonempty, elem_of_remove_dups.
    rewrite <-(merge_sort_Permutation String.le).
    by eapply list_elem_of_lookup_2. }
  destruct (caps_of_reals ty ts l Hall) as [l' Hl']. rewrite Hl' in *.
  exists l'. split; [by intros ->|done].
Qed.


(** X15: in exact arithmetic, when every capacity of the table is a real
    number, every figure of the report is a real number, with
    min <= mean <= max and a non-negative standard deviation, globally and
    in every row of the grouped table, with one exception: the standard
    deviation of a cycle type with a single record, which is NaN. *)
Theorem exact_report_defined fmt (d : dataset xreal) (st : explorer xreal)
    fs rep fs' (l : list R) :
  load_all d = Ok st →
  summarize_dataset fmt st fs = Ok (rep, fs') →
  all_capacities (summary_data st) = XR <$> l →
  (∃ m mn mx sd,
     capacity_mean rep = XR m ∧ capacity_min rep = XR mn
     ∧ capacity_max rep = XR mx ∧ capacity_std rep = XR sd
     ∧ (mn <= m <= mx)%R ∧ (0 <= sd)%R)
  ∧ ∀ ty row, (ty, row) ∈ grouped_stats rep →
      ∃ m mn mx,
        agg_mean row = XR m ∧ agg_min row = XR mn ∧ agg_max row = XR mx
        ∧ (mn <= m <= mx)%R
        ∧ ((length (group_capacities (summary_data st) ty) = 1
            ∧ agg_std row = XNaN)
           ∨ (2 ≤ length (group_capacities (summary_data st) ty)
              ∧ ∃ sd, agg_std row = XR sd ∧ (0 <= sd)%R)).
Proof.
  intros Hload Hs Hall. split.
  - destruct (summarize_after_load _ _ _ _ _ _ Hload Hs)
      as (ts & Hts & Hne & Hstd & Hmean & Hmin & Hmax & _).
    rewrite (all_capacities_flat _ _ Hts) in Hall.
    assert (l ≠ []) as Hl.
    { intros ->. apply fmap_nil_inv in Hall. subst ts.
      by apply Forall2_nil_inv_r in Hts. }
    destruct (stats_reals l Hl) as (m & mn & mx & Hm & Hmn & Hmx & Hle).
    destruct (population_std_reals l Hl) as (sd & Hsd & Hpos).
    exists m, mn, mx, sd. rewrite Hall in Hstd, Hmean, Hmin, Hmax.
    rewrite Hmean, Hstd, np_std_reals by done.
    rewrite Hmn in Hmin. rewrite Hmx in Hmax.
    injection Hmin as <-. injection Hmax as <-. done.
  - intros ty row Hin.
    destruct (grouped_row_reals _ _ _ _ _ _ _ _ _ Hload Hs Hall Hin)
      as (l' & Hne' & -> & ->).
    destruct (aggregate_reals l' Hne') as (Hm & Hmn & Hmx).
    destruct (stats_reals l' Hne') as (m & mn & mx & Hm' & Hmn' & Hmx' & Hle).
    exists m, mn, mx. rewrite Hm, Hm'.
    assert (agg_min (aggregate (XR <$> l')) = XR mn) as -> by congruence.
    assert (agg_max (aggregate (XR <$> l')) = XR mx) as -> by congruence.
    do 3 (split; [done|]). split; [exact Hle|].
    cbn [aggregate agg_std]. rewrite length_fmap.
    destruct (decide (length l' = 1)) as [Hone|Hmany].
    + left. split; [done|].
      change XNaN with (fnan (F := xreal)).
      apply pd_std_single. by rewrite length_fmap.
    + right. assert (2 ≤ length l') as Hlen.
      { destruct l' as [|? [|? ?]]; simpl in *; try done; lia. }
      split; [done|]. rewrite pd_std_reals by done.
      by apply sample_std_reals.
Qed.

End ExactReport.

(** ** The further properties at concrete inputs *)

Lemma main_failure_causes_witness :
  main Examples.no_fmt Examples.broken = Raise ValueError
  ∧ ((ValueError = IndexError
      ∧ ∃ c, in_dataset (data_root Examples.broken) c ∧ ¬ capacity_ok c)
     ∨ (ValueError = ValueError
        ∧ ∃ c, in_dataset (data_root Examples.broken) c ∧ has_empty_signal c
               ∧ capacity_indexable c)
     ∨ (ValueError = KeyError
        ∧ ∀ c, ¬ in_dataset (data_root Examples.broken) c)).
Proof.
  assert (main Examples.no_fmt Examples.broken = Raise ValueError)
    as Hmain by exact eq_refl.
  split; [exact Hmain|].
  exact (main_failure_causes Examples.no_fmt Examples.broken ValueError Hmain).
Defined.

Lemma no_cycles_has_no_cycle (c : cycle PrimFloat.float) :
  ¬ in_dataset (data_root MoreExamples.no_cycles_world) c.
Proof.
  intros [(mat & cs & Hmat & Hcs & Hc)|(mat & cs & Hmat & Hcs & Hc)];
    simpl in Hmat; elem_cases.
Defined.

Lemma main_no_cycle_KeyError_witness :
  (∃ st, load_all (data_root MoreExamples.no_cycles_world) = Ok st
         ∧ summary_data st = [])
  ∧ main Examples.no_fmt MoreExamples.no_cycles_world = Raise KeyError.
Proof.
  exact (main_no_cycle_KeyError Examples.no_fmt MoreExamples.no_cycles_world
           no_cycles_has_no_cycle).
Defined.

Lemma entry_capacities_parallel_witness :
  load_all Examples.synthetic = Ok Examples.synthetic_state
  ∧ battery_data Examples.synthetic_state !! "battery_1_charge"
    = Some Examples.synthetic_entry
  ∧ Forall2 (λ r v, dict_get r "capacity" = Some v)
      (cycles Examples.synthetic_entry) (capacities Examples.synthetic_entry).
Proof.
  assert (load_all Examples.synthetic = Ok Examples.synthetic_state)
    as Hload by exact eq_refl.
  assert (battery_data Examples.synthetic_state !! "battery_1_charge"
          = Some Examples.synthetic_entry) as Hk by exact eq_refl.
  split; [exact Hload|]. split; [exact Hk|].
  exact (proj1 (entry_capacities_parallel Examples.synthetic
                  Examples.synthetic_state "battery_1_charge" _ Hload Hk)).
Defined.

Lemma record_schema_witness :
  load_all Examples.synthetic = Ok Examples.synthetic_state
  ∧ MoreExamples.first_record ∈ summary_data Examples.synthetic_state
  ∧ dict_keys MoreExamples.first_record = feature_keys.
Proof.
  assert (load_all Examples.synthetic = Ok Examples.synthetic_state)
    as Hload by exact eq_refl.
  assert (MoreExamples.first_record ∈ summary_data Examples.synthetic_state)
    as Hin.
  { apply (list_elem_of_lookup_2 _ 0). exact eq_refl. }
  split; [exact Hload|]. split; [exact Hin|].
  exact (proj1 (record_schema Examples.synthetic Examples.synthetic_state
                  MoreExamples.first_record Hload Hin)).
Defined.



Lemma load_frame_witness :
  load_partial_charge_data Examples.synthetic MoreExamples.charge_loaded
  = Ok Examples.synthetic_state
  ∧ output_dir Examples.synthetic_state
    = output_dir MoreExamples.charge_loaded
  ∧ (∃ new, summary_data Examples.synthetic_state
            = summary_data MoreExamples.charge_loaded ++ new
            ∧ Forall (λ r, cycle_type_of r = Some "partial_charge") new)
  ∧ battery_data Examples.synthetic_state !! "battery_1_charge"
    = battery_data MoreExamples.charge_loaded !! "battery_1_charge".
Proof.
  assert (load_partial_charge_data Examples.synthetic
            MoreExamples.charge_loaded
          = Ok Examples.synthetic_state) as Hload by exact eq_refl.
  split; [exact Hload|].
  destruct (load_frame load_partial_charge_data "partial_charge"
              Examples.synthetic MoreExamples.charge_loaded
              Examples.synthetic_state (or_intror (conj eq_refl eq_refl))
              Hload)
    as (Hout & Hnew & Hother & _).
  split; [exact Hout|]. split; [exact Hnew|].
  apply Hother. intros n Hk.
  change "battery_1_charge" with (battery_key 1 "charge") in Hk.
  apply battery_key_inj in Hk as [_ Hty]. discriminate Hty.
Defined.

Lemma reload_appends_witness :
  load_charge_data Examples.synthetic (init "output")
  = Ok MoreExamples.charge_loaded
  ∧ ∃ new,
      summary_data MoreExamples.charge_loaded
      = summary_data (init (F := PrimFloat.float) "output") ++ new
      ∧ load_charge_data Examples.synthetic MoreExamples.charge_loaded
        = Ok {| output_dir := output_dir MoreExamples.charge_loaded;
                battery_data := battery_data MoreExamples.charge_loaded;
                summary_data :=
                  summary_data MoreExamples.charge_loaded ++ new |}.
Proof.
  assert (load_charge_data Examples.synthetic (init "output")
          = Ok MoreExamples.charge_loaded) as Hload by exact eq_refl.
  split; [exact Hload|].
  exact (reload_appends load_charge_data Examples.synthetic (init "output")
           MoreExamples.charge_loaded (or_introl eq_refl) Hload).
Defined.

Lemma total_batteries_max_per_directory_witness :
  load_all Examples.synthetic = Ok Examples.synthetic_state
  ∧ summarize_dataset Examples.no_fmt Examples.synthetic_state ∅
    = Ok (Examples.synthetic_summary.1, Examples.synthetic_summary.2)
  ∧ size (battery_data Examples.synthetic_state)
    = max_list_with length (charge_dir Examples.synthetic)
      + max_list_with length (partial_charge_dir Examples.synthetic)
  ∧ total_batteries Examples.synthetic_summary.1
    = size (battery_data Examples.synthetic_state).
Proof.
  assert (load_all Examples.synthetic = Ok Examples.synthetic_state)
    as Hload by exact eq_refl.
  assert (summarize_dataset Examples.no_fmt Examples.synthetic_state ∅
          = Ok (Examples.synthetic_summary.1, Examples.synthetic_summary.2))
    as Hsum by exact eq_refl.
  split; [exact Hload|]. split; [exact Hsum|].
  exact (total_batteries_max_per_directory Examples.no_fmt Examples.synthetic
           Examples.synthetic_state ∅ Examples.synthetic_summary.1
           Examples.synthetic_summary.2 Hload Hsum).
Defined.

Lemma printed_counts_witness :
  load_charge_data_printed Examples.synthetic (init "output")
  = Ok (MoreExamples.charge_loaded, 1)
  ∧ load_partial_charge_data_printed Examples.synthetic
      MoreExamples.charge_loaded
    = Ok (Examples.synthetic_state, 2)
  ∧ load_all Examples.synthetic = Ok Examples.synthetic_state
  ∧ 1 = max_list_with length (charge_dir Examples.synthetic)
  ∧ 2 = max_list_with length (charge_dir Examples.synthetic)
        + max_list_with length (partial_charge_dir Examples.synthetic).
Proof.
  assert (load_charge_data_printed Examples.synthetic (init "output")
          = Ok (MoreExamples.charge_loaded, 1)) as H1 by exact eq_refl.
  assert (load_partial_charge_data_printed Examples.synthetic
            MoreExamples.charge_loaded
          = Ok (Examples.synthetic_state, 2)) as H2 by exact eq_refl.
  split; [exact H1|]. split; [exact H2|].
  exact (printed_counts Examples.synthetic MoreExamples.charge_loaded 1
           Examples.synthetic_state 2 H1 H2).
Defined.

Lemma grouped_rows_witness :
  load_all Examples.synthetic = Ok Examples.synthetic_state
  ∧ summarize_dataset Examples.no_fmt Examples.synthetic_state ∅
    = Ok (Examples.synthetic_summary.1, Examples.synthetic_summary.2)
  ∧ (grouped_stats Examples.synthetic_summary.1).*1
    = (if decide (dir_cycle_count (charge_dir Examples.synthetic) = 0)
       then [] else ["charge"])
      ++ (if decide (dir_cycle_count (partial_charge_dir Examples.synthetic)
                     = 0)
          then [] else ["partial_charge"]).
Proof.
  assert (load_all Examples.synthetic = Ok Examples.synthetic_state)
    as Hload by exact eq_refl.
  assert (summarize_dataset Examples.no_fmt Examples.synthetic_state ∅
          = Ok (Examples.synthetic_summary.1, Examples.synthetic_summary.2))
    as Hsum by exact eq_refl.
  split; [exact Hload|]. split; [exact Hsum|].
  exact (grouped_rows Examples.no_fmt Examples.synthetic
           Examples.synthetic_state ∅ Examples.synthetic_summary.1
           Examples.synthetic_summary.2 Hload Hsum).
Defined.

Lemma main_writes_two_files_witness :
  main Examples.no_fmt Examples.synthetic_world
  = Ok (Examples.synthetic_summary.1,
        {| data_root := Examples.synthetic;
           written := Examples.synthetic_summary.2 |})
  ∧ Examples.synthetic_summary.2 !! "output/battery_cycle_summary.csv"
    = Some (to_csv Examples.no_fmt (summary_df Examples.synthetic_summary.1))
  ∧ Examples.synthetic_summary.2 !! "output/battery_cycle_type_summary.csv"
    = Some (grouped_to_csv Examples.no_fmt
              (grouped_stats Examples.synthetic_summary.1)).
Proof.
  assert (main Examples.no_fmt Examples.synthetic_world
          = Ok (Examples.synthetic_summary.1,
                {| data_root := Examples.synthetic;
                   written := Examples.synthetic_summary.2 |}))
    as Hmain by exact eq_refl.
  split; [exact Hmain|].
  destruct (main_writes_two_files Examples.no_fmt Examples.synthetic_world
              _ _ Hmain) as (_ & H1 & H2 & _).
  split; [exact H1|exact H2].
Defined.

Lemma exact_report_defined_witness :
  load_all ExactExamples.single_charge = Ok ExactExamples.single_charge_state
  ∧ summarize_dataset ExactExamples.no_fmt ExactExamples.single_charge_state ∅
    = Ok (ExactExamples.single_charge_summary.1,
          ExactExamples.single_charge_summary.2)
  ∧ all_capacities (summary_data ExactExamples.single_charge_state)
    = Exact.XR <$> [10; 5; 6]%R
  ∧ ∃ m mn mx sd,
      capacity_mean ExactExamples.single_charge_summary.1 = Exact.XR m
      ∧ capacity_min ExactExamples.single_charge_summary.1 = Exact.XR mn
      ∧ capacity_max ExactExamples.single_charge_summary.1 = Exact.XR mx
      ∧ capacity_std ExactExamples.single_charge_summary.1 = Exact.XR sd
      ∧ (mn <= m <= mx)%R ∧ (0 <= sd)%R.
Proof.
  assert (load_all ExactExamples.single_charge
          = Ok ExactExamples.single_charge_state) as Hload by exact eq_refl.
  assert (summarize_dataset ExactExamples.no_fmt
            ExactExamples.single_charge_state ∅
          = Ok (ExactExamples.single_charge_summary.1,
                ExactExamples.single_charge_summary.2))
    as Hsum by exact eq_refl.
  assert (all_capacities (summary_data ExactExamples.single_charge_state)
          = Exact.XR <$> [10; 5; 6]%R) as Hall by exact eq_refl.
  split; [exact Hload|]. split; [exact Hsum|]. split; [exact Hall|].
  exact (proj1 (exact_report_defined ExactExamples.no_fmt
                  ExactExamples.single_charge
                  ExactExamples.single_charge_state ∅
                  ExactExamples.single_charge_summary.1
                  ExactExamples.single_charge_summary.2
                  [10; 5; 6]%R Hload Hsum Hall)).
Defined.
